(** * postlogd(8): the Postfix internal log server

    A shallow embedding of [src/postlogd/postlogd.c] and the properties of
    its routing decision, its start-up handshake and its life-cycle
    settings.

    The C file keeps its state in globals and talks to four collaborators
    (the logwriter, syslog, the msg_logger client and the datagram server
    skeleton).  The embedding threads the globals and a chronological
    trace of the calls made to the collaborators through a small
    state-and-termination monad. *)

From stdpp Require Import base option list strings gmap.
From Stdlib Require Import ZArith Lia.
From Stdlib.Strings Require Import Byte.

Local Open Scope Z_scope.

(** ** C data *)

(** A [char] is a byte; a [char *] is modelled by the bytes of the object
    it points into, from the pointer onwards. *)
Abbreviation byte := Byte.byte.

Definition NUL : byte := Byte.x00.

Definition is_NUL (b : byte) : bool := Byte.eqb b NUL.

(** [strlen]: the number of bytes before the first NUL.  A buffer without a
    NUL makes the C function read past the object, which is undefined. *)
Fixpoint strlen (buf : list byte) : option Z :=
  match buf with
  | [] => None
  | b :: rest => if is_NUL b then Some 0 else Z.succ <$> strlen rest
  end.

(** The string a NUL-terminated buffer holds. *)
Fixpoint c_string (buf : list byte) : list byte :=
  match buf with
  | [] => []
  | b :: rest => if is_NUL b then [] else b :: c_string rest
  end.

(** [(int) len] on an LP64 platform: [ssize_t] has 64 bits, [int] has 32. *)
Definition INT_MAX : Z := 2147483647.

Definition int_of_ssize_t (len : Z) : Z :=
  let low := len mod 2 ^ 32 in
  if decide (low <= INT_MAX) then low else low - 2 ^ 32.

(** The conversion ["%.*s"] of the printf family, applied to a precision
    and a [char *]: bytes are taken up to, not including, the first NUL,
    and no more than [prec] of them; a negative precision counts as
    omitted.  [None] stands for a read past the end of the buffer: [prec]
    bytes are not there and no NUL stops the read before. *)
Fixpoint format_precision_s (prec : nat) (buf : list byte) : option (list byte) :=
  match prec with
  | O => Some []
  | S p =>
      match buf with
      | [] => None
      | b :: rest =>
          if is_NUL b then Some [] else (b ::.) <$> format_precision_s p rest
      end
  end.

Definition format_s (buf : list byte) : option (list byte) :=
  (fun _ => c_string buf) <$> strlen buf.

Definition format_dot_star_s (prec : Z) (buf : list byte) : option (list byte) :=
  if decide (prec < 0) then format_s buf
  else format_precision_s (Z.to_nat prec) buf.

(** <syslog.h> *)
Definition LOG_MAIL : Z := Z.shiftl 2 3.
Definition LOG_INFO : Z := 6.
Definition LOG_FAC (priority : Z) : Z := Z.shiftr (Z.land priority 1016) 3.
Definition LOG_PRI (priority : Z) : Z := Z.land priority 7.

(** <vstream.h> *)
Definition VSTREAM_EOF : Z := -1.

(** A [VSTREAM *] that is not null; [option VSTREAM] is a nullable one. *)
Definition VSTREAM := positive.

(** ** The process *)

(** The functions of this file whose address is handed to a collaborator. *)
Inductive fnptr :=
| Fn_postlogd_fallback.

(** The requests of [msg_logger_control]'s argument list. *)
Inductive msg_logger_ctl :=
| CA_MSG_LOGGER_CTL_FALLBACK_ONLY
| CA_MSG_LOGGER_CTL_FALLBACK_FN (fn : fnptr).

(** The calls that leave the process, in the order they are made. *)
Inductive event :=
| Logwriter_open (path : string) (fp : option VSTREAM)
| Logwriter_write (fp : VSTREAM) (bytes : list byte) (status : Z)
| Syslog (priority : Z) (text : list byte)
| Msg_logger_control (requests : list msg_logger_ctl)
| Postlog_socket (text : list byte).

(** The globals of the process, with the trace of its calls so far.
    [postlogd_stream] and [var_postlogd_watchdog] are defined in
    postlogd.c; [var_use_limit] belongs to the server skeleton and
    [var_maillog_file] to the configuration (mail_params); the two
    [msg_logger_] fields are the state behind [msg_logger_control]. *)
Record process := Process {
  postlogd_stream : option VSTREAM;
  var_postlogd_watchdog : Z;
  var_use_limit : Z;
  var_idle_limit : Z;
  var_maillog_file : string;
  msg_logger_fallback_only : bool;
  msg_logger_fallback_fn : option fnptr;
  use_count : Z;
  trace : list event
}.

Definition set_postlogd_stream (fp : option VSTREAM) (p : process) : process :=
  Process fp (var_postlogd_watchdog p) (var_use_limit p) (var_idle_limit p)
    (var_maillog_file p) (msg_logger_fallback_only p)
    (msg_logger_fallback_fn p) (use_count p) (trace p).

Definition set_msg_logger (only : bool) (fn : option fnptr) (p : process) : process :=
  Process (postlogd_stream p) (var_postlogd_watchdog p) (var_use_limit p)
    (var_idle_limit p) (var_maillog_file p) only fn (use_count p) (trace p).

Definition set_use_count (n : Z) (p : process) : process :=
  Process (postlogd_stream p) (var_postlogd_watchdog p) (var_use_limit p)
    (var_idle_limit p) (var_maillog_file p) (msg_logger_fallback_only p)
    (msg_logger_fallback_fn p) n (trace p).

Definition record_event (e : event) (p : process) : process :=
  Process (postlogd_stream p) (var_postlogd_watchdog p) (var_use_limit p)
    (var_idle_limit p) (var_maillog_file p) (msg_logger_fallback_only p)
    (msg_logger_fallback_fn p) (use_count p) (trace p ++ [e]).

(** An [int *] that points at one of the tunable globals. *)
Inductive int_var :=
| Var_postlogd_watchdog
| Var_use_limit
| Var_idle_limit.

Definition load (x : int_var) (p : process) : Z :=
  match x with
  | Var_postlogd_watchdog => var_postlogd_watchdog p
  | Var_use_limit => var_use_limit p
  | Var_idle_limit => var_idle_limit p
  end.

Definition store (x : int_var) (v : Z) (p : process) : process :=
  match x with
  | Var_postlogd_watchdog =>
      Process (postlogd_stream p) v (var_use_limit p) (var_idle_limit p)
        (var_maillog_file p) (msg_logger_fallback_only p)
        (msg_logger_fallback_fn p) (use_count p) (trace p)
  | Var_use_limit =>
      Process (postlogd_stream p) (var_postlogd_watchdog p) v (var_idle_limit p)
        (var_maillog_file p) (msg_logger_fallback_only p)
        (msg_logger_fallback_fn p) (use_count p) (trace p)
  | Var_idle_limit =>
      Process (postlogd_stream p) (var_postlogd_watchdog p) (var_use_limit p) v
        (var_maillog_file p) (msg_logger_fallback_only p)
        (msg_logger_fallback_fn p) (use_count p) (trace p)
  end.

(** ** Control *)

(** What a C access does when it leaves the defined behaviour. *)
Inductive fault :=
| Null_stream
| Read_past_end
| Negative_length.

(** How the process ends. *)
Inductive termination :=
| Fatal (text : string)
| Watchdog_expired
| Idle_exit
| Use_limit_exit
| Crash (why : fault).

Inductive result (A : Type) :=
| Ret (a : A)
| Stop (t : termination).
Arguments Ret {A} a.
Arguments Stop {A} t.

(** A C statement: it runs from a process state, and either returns or
    ends the process; the state reached is kept in both cases. *)
Definition M (A : Type) : Type := process -> result A * process.

Definition ret {A} (a : A) : M A := fun p => (Ret a, p).

Definition bind {A B} (m : M A) (k : A -> M B) : M B :=
  fun p =>
    match m p with
    | (Ret a, p') => k a p'
    | (Stop t, p') => (Stop t, p')
    end.

Definition stop {A} (t : termination) : M A := fun p => (Stop t, p).
Definition gets {A} (f : process -> A) : M A := fun p => (Ret (f p), p).
Definition modify (f : process -> process) : M unit := fun p => (Ret tt, f p).
Definition emit (e : event) : M unit := modify (record_event e).

Declare Scope c_scope.
Delimit Scope c_scope with C.
Notation "x <- m ;; k" := (bind m (fun x => k))
  (at level 100, m at next level, right associativity) : c_scope.
Notation "m ;; k" := (bind m (fun _ => k))
  (at level 100, right associativity) : c_scope.
Local Open Scope c_scope.

(** ** Configuration *)

(** What main.cf holds when the process starts.  The server skeleton loads
    the destination path and its own two life-cycle limits; the time
    parameters a service asks for are looked up by name. *)
Record main_cf := Main_cf {
  cf_maillog_file : string;
  cf_max_idle : Z;
  cf_max_use : Z;
  cf_time : gmap string Z
}.

(** One row of a time table, as the rows of [main] are laid out:
    parameter name, default, target, lower bound, upper bound. *)
Record CONFIG_TIME_TABLE := Config_time {
  ctt_name : string;
  ctt_defval : Z;
  ctt_target : int_var;
  ctt_min : Z;
  ctt_max : Z
}.

(** Modelled from the spec: the two macros of global/mail_params.h that
    [main] uses; the header is not among the sources verified here.  The
    parameter is the one the manual
    page at the head of postlogd.c documents,
    "postlogd_watchdog_timeout (10s)"; the spec gives the watchdog timeout
    a default of 10 time-units. *)
Definition VAR_POSTLOGD_WATCHDOG : string := "postlogd_watchdog_timeout".
Definition DEF_POSTLOGD_WATCHDOG : Z := 10.

(** The process as the C runtime and the skeleton's own configuration
    leave it before any code of postlogd.c runs: [postlogd_stream] is
    initialised to 0, [var_postlogd_watchdog] is a zeroed global, the
    msg_logger client uses the postlog socket. *)
Definition process_start (cf : main_cf) : process :=
  Process None 0 (cf_max_use cf) (cf_max_idle cf) (cf_maillog_file cf)
    false None 0 [].

(** What the skeleton's event loop is woken by: an inbound record, with
    the time its processing takes; a diagnostic the process emits about
    itself; a stretch of time without any request. *)
Inductive stimulus :=
| Datagram (record : list byte) (elapsed : Z)
| Diagnostic (text : list byte)
| Quiet (elapsed : Z).

(** ** The program *)

Section Postlogd.

(** The world outside the process: which paths the file system lets the
    logwriter open, and whether a write goes through, given all the
    calls made before it. *)
Variable safe_open : string -> option VSTREAM.
Variable write_ok : list event -> VSTREAM -> list byte -> bool.

(** *** Collaborators *)

(** Modelled from the spec: [logwriter_write] of util/logwriter.c, which
    is not among the sources verified here.  The spec's AppendTarget
    collaborator has
    "append(handle, bytes) -> success | fails with WriteError"; the bytes
    are the [len] bytes at [buf].  A null stream, a negative length and a
    length beyond the object are outside the function's contract. *)
Definition logwriter_write (fp : option VSTREAM) (buf : list byte) (len : Z) : M Z :=
  match fp with
  | None => stop (Crash Null_stream)
  | Some h =>
      if decide (len < 0) then stop (Crash Negative_length)
      else if decide (Z.of_nat (length buf) < len) then stop (Crash Read_past_end)
      else
        let bytes := take (Z.to_nat len) buf in
        before <- gets trace;;
        let status := if write_ok before h bytes then 0 else VSTREAM_EOF in
        emit (Logwriter_write h bytes status);;
        ret status
  end.

(** [syslog(priority, "%.*s", prec, buf)] of the C library. *)
Definition syslog_dot_star_s (priority prec : Z) (buf : list byte) : M unit :=
  match format_dot_star_s prec buf with
  | Some text => emit (Syslog priority text)
  | None => stop (Crash Read_past_end)
  end.

(** *** postlogd.c *)

(** postlogd_fallback - log messages from postlogd(8) itself *)
Definition postlogd_fallback (buf : list byte) : M unit :=
  fp <- gets postlogd_stream;;
  match strlen buf with
  | Some len => logwriter_write fp buf len;; ret tt
  | None => stop (Crash Read_past_end)
  end.

Definition call (fn : fnptr) : list byte -> M unit :=
  match fn with
  | Fn_postlogd_fallback => postlogd_fallback
  end.

(** postlogd_service - perform service for client *)
Definition postlogd_service (buf : list byte) (len : Z)
    (unused_service : string) (unused_argv : list string) : M unit :=
  fp <- gets postlogd_stream;;
  match fp with
  | Some _ => logwriter_write fp buf len;; ret tt
  | None => syslog_dot_star_s (Z.lor LOG_MAIL LOG_INFO) (int_of_ssize_t len) buf
  end.

(** *** Collaborators, continued *)

(** Modelled from the spec: the diagnostic emission path of the
    msg_logger client (util/msg_logger.c, not among the sources verified
    here).  The spec's
    diagnostic-redirect collaborator holds a mode flag meaning "route my
    own diagnostics only through this function, not through the shared
    channel", and the registered fallback writer.  The writer receives
    the text as a C string. *)
Definition msg_logger_print (text : list byte) : M unit :=
  only <- gets msg_logger_fallback_only;;
  if only then
    fn <- gets msg_logger_fallback_fn;;
    match fn with
    | Some f => call f (text ++ [NUL])
    | None => ret tt
    end
  else emit (Postlog_socket text).

(** Modelled from the spec: what one request of [msg_logger_control]
    does to the state of the msg_logger client. *)
Definition msg_logger_apply (req : msg_logger_ctl) (p : process) : process :=
  match req with
  | CA_MSG_LOGGER_CTL_FALLBACK_ONLY => set_msg_logger true (msg_logger_fallback_fn p) p
  | CA_MSG_LOGGER_CTL_FALLBACK_FN fn => set_msg_logger (msg_logger_fallback_only p) (Some fn) p
  end.

(** Modelled from the spec: [msg_logger_control] of util/msg_logger.c.
    The spec's collaborator "accepts a registration setFallbackWriter(fn)
    and a mode flag"; the requests are applied in the order given. *)
Definition msg_logger_control (requests : list msg_logger_ctl) : M unit :=
  emit (Msg_logger_control requests);;
  modify (fun p => foldl (fun q req => msg_logger_apply req q) p requests).

(** Modelled from the spec: [msg_fatal] of util/msg.c.  The spec has a
    fatal condition end the process at once "with a descriptive
    message"; the message is one of the process's own diagnostics. *)
Definition msg_fatal {A} (text : string) : M A :=
  msg_logger_print (String.list_byte_of_string text);;
  stop (Fatal text).

(** Modelled from the spec: [logwriter_open] of util/logwriter.c.  The
    spec's AppendTarget collaborator has "open(path) -> handle | fails
    with OpenError", and "failure to open is fatal: the process must
    terminate immediately"; pre_jail_init calls it under the comment
    "Instantiate the logwriter or bust" and does not test what it
    returns. *)
Definition logwriter_open (path : string) : M VSTREAM :=
  let fp := safe_open path in
  emit (Logwriter_open path fp);;
  match fp with
  | Some h => ret h
  | None => msg_fatal ("open logfile " +:+ path)
  end.

(** *** postlogd.c, continued *)

(** pre_jail_init - pre-jail handling.  [argv] is a null-terminated
    vector, so [argv[0]] is set when the list is not empty; a C string
    is held as its characters, so [*var_maillog_file != 0] is the test
    that the string is not empty. *)
Definition pre_jail_init (unused_service_name : string) (argv : list string) : M unit :=
  match argv with
  | arg :: _ => msg_fatal ("unexpected command-line argument: " +:+ arg)
  | [] => ret tt
  end;;
  path <- gets var_maillog_file;;
  if bool_decide (path ≠ "") then
    fp <- logwriter_open path;;
    modify (set_postlogd_stream (Some fp));;
    msg_logger_control [CA_MSG_LOGGER_CTL_FALLBACK_ONLY;
                        CA_MSG_LOGGER_CTL_FALLBACK_FN Fn_postlogd_fallback]
  else ret tt.

(** post_jail_init - post-jail initialization *)
Definition post_jail_init (unused_name : string) (unused_argv : list string) : M unit :=
  modify (store Var_use_limit 0).

(** The table of [main]. *)
Definition time_table : list CONFIG_TIME_TABLE :=
  [Config_time VAR_POSTLOGD_WATCHDOG DEF_POSTLOGD_WATCHDOG Var_postlogd_watchdog 10 0].

(** *** The server skeleton *)

(** Modelled from the spec: the look-up of one time parameter
    (global/mail_conf_time.c, not among the sources verified here): the
    configured value,
    or the default when main.cf does not set the parameter ("watchdog
    timeout duration (default 10 time-units)").  A bound of zero is no
    bound; a value outside the bounds of its row is a fatal
    configuration error. *)
Definition get_mail_conf_time (cf : main_cf) (row : CONFIG_TIME_TABLE) : M unit :=
  let v := default (ctt_defval row) (cf_time cf !! ctt_name row) in
  if bool_decide (ctt_min row ≠ 0 ∧ v < ctt_min row) then
    msg_fatal ("invalid " +:+ ctt_name row +:+ " parameter value: below the minimum")
  else if bool_decide (ctt_max row ≠ 0 ∧ ctt_max row < v) then
    msg_fatal ("invalid " +:+ ctt_name row +:+ " parameter value: above the maximum")
  else modify (store (ctt_target row) v).

(** Modelled from the spec: the look-up of a whole table, row by row. *)
Fixpoint get_mail_conf_time_table (cf : main_cf) (table : list CONFIG_TIME_TABLE) : M unit :=
  match table with
  | [] => ret tt
  | row :: rest => get_mail_conf_time cf row;; get_mail_conf_time_table cf rest
  end.

Definition init_fn : Type := string -> list string -> M unit.
Definition service_fn : Type := list byte -> Z -> string -> list string -> M unit.

(** The name-value arguments of [dgram_server_main] that [main] uses. *)
Inductive mail_server_arg :=
| CA_MAIL_SERVER_TIME_TABLE (table : list CONFIG_TIME_TABLE)
| CA_MAIL_SERVER_PRE_INIT (f : init_fn)
| CA_MAIL_SERVER_POST_INIT (f : init_fn)
| CA_MAIL_SERVER_SOLITARY
| CA_MAIL_SERVER_WATCHDOG (timeout : int_var).

Record server_setup := Server_setup {
  pre_init : option init_fn;
  post_init : option init_fn;
  solitary : bool;
  watchdog : option int_var
}.

Definition no_setup : server_setup := Server_setup None None false None.

(** Modelled from the spec: the skeleton's pass over its argument list
    (master/dgram_server.c, not among the sources verified here).  Time
    tables are loaded
    from the configuration, which the spec has "read once at startup";
    the hooks and the watchdog variable are kept for later. *)
Fixpoint mail_server_args (cf : main_cf) (args : list mail_server_arg)
    (setup : server_setup) : M server_setup :=
  match args with
  | [] => ret setup
  | CA_MAIL_SERVER_TIME_TABLE table :: rest =>
      get_mail_conf_time_table cf table;;
      mail_server_args cf rest setup
  | CA_MAIL_SERVER_PRE_INIT f :: rest =>
      mail_server_args cf rest
        (Server_setup (Some f) (post_init setup) (solitary setup) (watchdog setup))
  | CA_MAIL_SERVER_POST_INIT f :: rest =>
      mail_server_args cf rest
        (Server_setup (pre_init setup) (Some f) (solitary setup) (watchdog setup))
  | CA_MAIL_SERVER_SOLITARY :: rest =>
      mail_server_args cf rest
        (Server_setup (pre_init setup) (post_init setup) true (watchdog setup))
  | CA_MAIL_SERVER_WATCHDOG timeout :: rest =>
      mail_server_args cf rest
        (Server_setup (pre_init setup) (post_init setup) (solitary setup) (Some timeout))
  end.

(** Modelled from the spec: a hook is called if the service gave one. *)
Definition run_hook (hook : option init_fn) (service_name : string)
    (argv : list string) : M unit :=
  match hook with
  | Some f => f service_name argv
  | None => ret tt
  end.

(** Modelled from the spec: the watchdog fires when a request takes
    longer than the timeout held in the variable the service named. *)
Definition watchdog_expires (timeout : option int_var) (elapsed : Z) (p : process) : bool :=
  match timeout with
  | Some x => bool_decide (load x p < elapsed)
  | None => false
  end.

(** Modelled from the spec: one wake-up of the service loop (section
    4.3).  A record is handed to the service routine with its length,
    one at a time; "exceeding the timeout is fatal -- the process is
    killed", and what the request had done by then is not recorded.  A
    diagnostic of the process's own goes down the msg_logger path.  The
    process ends gracefully once it has been idle for the idle limit,
    a limit of zero switching that policy off. *)
Definition dgram_server_wakeup (service : service_fn) (service_name : string)
    (argv : list string) (timeout : option int_var) (x : stimulus) : M unit :=
  match x with
  | Datagram record elapsed =>
      expired <- gets (watchdog_expires timeout elapsed);;
      if expired : bool then stop Watchdog_expired
      else
        service record (Z.of_nat (length record)) service_name argv;;
        modify (fun p => set_use_count (use_count p + 1) p)
  | Diagnostic text => msg_logger_print text
  | Quiet elapsed =>
      idle <- gets var_idle_limit;;
      if bool_decide (0 < idle ∧ idle <= elapsed) then stop Idle_exit else ret tt
  end.

(** Modelled from the spec: the service loop, with the skeleton's
    "terminate after a fixed number of serviced requests" policy, which
    a limit of zero switches off. *)
Fixpoint dgram_server_loop (service : service_fn) (service_name : string)
    (argv : list string) (timeout : option int_var) (inbox : list stimulus) : M unit :=
  limit <- gets var_use_limit;;
  served <- gets use_count;;
  if bool_decide (limit ≠ 0 ∧ limit <= served) then stop Use_limit_exit
  else
    match inbox with
    | [] => ret tt
    | x :: rest =>
        dgram_server_wakeup service service_name argv timeout x;;
        dgram_server_loop service service_name argv timeout rest
    end.

(** Modelled from the spec: [dgram_server_main] (section 4.3,
    STARTING -> ACCEPTING): the arguments are taken in, the pre-jail and
    post-jail hooks run, in that order and once each, and only then does
    the loop accept records.  [argv] is what is left of the command line
    once the skeleton has taken its own options and the service name. *)
Definition dgram_server_main (cf : main_cf) (service_name : string) (argv : list string)
    (service : service_fn) (args : list mail_server_arg)
    (inbox : list stimulus) : M unit :=
  setup <- mail_server_args cf args no_setup;;
  run_hook (pre_init setup) service_name argv;;
  run_hook (post_init setup) service_name argv;;
  dgram_server_loop service service_name argv (watchdog setup) inbox.

(** *** postlogd.c, the end *)

(** main - pass control to the multi-threaded skeleton *)
Definition main (cf : main_cf) (service_name : string) (argv : list string)
    (inbox : list stimulus) : M unit :=
  dgram_server_main cf service_name argv postlogd_service
    [CA_MAIL_SERVER_TIME_TABLE time_table;
     CA_MAIL_SERVER_PRE_INIT pre_jail_init;
     CA_MAIL_SERVER_POST_INIT post_jail_init;
     CA_MAIL_SERVER_SOLITARY;
     CA_MAIL_SERVER_WATCHDOG Var_postlogd_watchdog]
    inbox.

(** A whole life of the process. *)
Definition run (cf : main_cf) (service_name : string) (argv : list string)
    (inbox : list stimulus) : result unit * process :=
  main cf service_name argv inbox (process_start cf).

End Postlogd.

(** ** Vocabulary of the properties *)

(** The sinks of the spec: AppendTarget is written by [logwriter_write],
    FallbackSink by [syslog]; the shared channel is the postlog socket. *)
Definition to_append_target (e : event) : bool :=
  match e with Logwriter_write _ _ _ => true | _ => false end.

Definition to_fallback_sink (e : event) : bool :=
  match e with Syslog _ _ => true | _ => false end.

Definition on_shared_channel (e : event) : bool :=
  match e with Postlog_socket _ => true | _ => false end.

Definition opens_target (e : event) : bool :=
  match e with Logwriter_open _ _ => true | _ => false end.

Definition registers_writer (e : event) : bool :=
  match e with Msg_logger_control _ => true | _ => false end.

Definition written_to (fp : VSTREAM) (e : event) : bool :=
  match e with Logwriter_write h _ _ => bool_decide (h = fp) | _ => false end.

(** What [logwriter_write] returns in a given state of the world. *)
Definition write_status (write_ok : list event → VSTREAM → list byte → bool)
    (p : process) (fp : VSTREAM) (bytes : list byte) : Z :=
  if write_ok (trace p) fp bytes then 0 else VSTREAM_EOF.

(** The watchdog timeout main.cf asks for. *)
Definition watchdog_setting (cf : main_cf) : Z :=
  default DEF_POSTLOGD_WATCHDOG (cf_time cf !! VAR_POSTLOGD_WATCHDOG).

(** DiagnosticRedirectState: "use shared channel" and "use direct write". *)
Definition use_shared_channel (p : process) : Prop :=
  msg_logger_fallback_only p = false ∧ msg_logger_fallback_fn p = None.

Definition use_direct_write (p : process) : Prop :=
  msg_logger_fallback_only p = true ∧
  msg_logger_fallback_fn p = Some Fn_postlogd_fallback.

(** The test at the head of the service loop. *)
Definition use_limit_reached (p : process) : bool :=
  bool_decide (var_use_limit p ≠ 0 ∧ var_use_limit p <= use_count p).

(** The events a statement adds to the trace. *)
Definition extends_by (P : event → Prop) (before after : process) : Prop :=
  ∃ new, trace after = trace before ++ new ∧ Forall P new.

(** No event of a kind has happened so far. *)
Definition no_event (kind : event → bool) (p : process) : Prop :=
  Forall (λ e, kind e = false) (trace p).

(** The process runs without a destination: nothing opened, nothing
    registered, diagnostics on the shared channel. *)
Definition never_redirected (p : process) : Prop :=
  postlogd_stream p = None ∧ use_shared_channel p ∧ var_maillog_file p = "" ∧
  no_event opens_target p ∧ no_event registers_writer p.

(** The fallback writer is registered only where the stream is set. *)
Definition writer_has_stream (p : process) : Prop :=
  msg_logger_fallback_fn p ≠ None → postlogd_stream p ≠ None.

(** An end of the process that is not a write through a null stream. *)
Definition stops_with_stream (t : termination) (p : process) : Prop :=
  writer_has_stream p ∧ t ≠ Crash Null_stream.

(** The life-cycle settings: the idle limit the skeleton configured and
    the watchdog timeout main.cf asks for; in the loop, no use limit. *)
Definition lifecycle (idle timeout : Z) (p : process) : Prop :=
  var_idle_limit p = idle ∧ var_postlogd_watchdog p = timeout.

Definition accepting (idle timeout : Z) (p : process) : Prop :=
  lifecycle idle timeout p ∧ var_use_limit p = 0.

Definition ends_settled (idle timeout : Z) (t : termination) (p : process) : Prop :=
  var_idle_limit p = idle ∧ (10 <= timeout → var_postlogd_watchdog p = timeout) ∧
  t ≠ Use_limit_exit.

Definition ends_in_time (idle timeout : Z) (t : termination) (p : process) : Prop :=
  ends_settled idle timeout t p ∧ t ≠ Watchdog_expired.

(** The stream is open, and since [start] nothing went to syslog. *)
Definition appending (fp : VSTREAM) (start p : process) : Prop :=
  postlogd_stream p = Some fp ∧
  extends_by (λ e, to_fallback_sink e = false) start p.

(** Initialisation is under way: no record has been routed. *)
Definition starting (path : string) (p : process) : Prop :=
  var_maillog_file p = path ∧ postlogd_stream p = None ∧
  msg_logger_fallback_only p = false ∧ use_count p = 0 ∧
  no_event to_append_target p ∧ no_event to_fallback_sink p.

Definition ends_at_startup (t : termination) (p : process) : Prop :=
  (∃ text, t = Fatal text) ∧ use_count p = 0 ∧
  no_event to_append_target p ∧ no_event to_fallback_sink p.

(** The two calls initialisation makes for a destination that opens. *)
Definition handshake (path : string) (fp : VSTREAM) : list event :=
  [Logwriter_open path (Some fp);
   Msg_logger_control [CA_MSG_LOGGER_CTL_FALLBACK_ONLY;
                       CA_MSG_LOGGER_CTL_FALLBACK_FN Fn_postlogd_fallback]].

(** The process has opened [path] as [fp] and switched its diagnostics
    over, once, and since then has only written to [fp]. *)
Definition redirected_to (path : string) (fp : VSTREAM) (p : process) : Prop :=
  postlogd_stream p = Some fp ∧ use_direct_write p ∧
  ∃ since,
    trace p = handshake path fp ++ since ∧
    Forall (λ e, written_to fp e = true) since.

(** A stimulus that the watchdog lets through. *)
Definition within (timeout : Z) (x : stimulus) : Prop :=
  match x with
  | Datagram _ elapsed => elapsed <= timeout
  | _ => True
  end.

(** A statement run from a state in [P] returns in [Q], or ends the
    process in [E]. *)
Definition triple {A} (P : process → Prop) (m : M A)
    (Q : A → process → Prop) (E : termination → process → Prop) : Prop :=
  ∀ p, P p →
    match m p with
    | (Ret a, q) => Q a q
    | (Stop t, q) => E t q
    end.

(** ** Vocabulary of the further properties *)

(** What the calls of a trace carried to the logwriter, and to syslog. *)
Definition payload_of (e : event) : option (list byte) :=
  match e with Logwriter_write _ written _ => Some written | _ => None end.

Definition syslog_text_of (e : event) : option (list byte) :=
  match e with Syslog _ text => Some text | _ => None end.

Definition payloads (events : list event) : list (list byte) :=
  omap payload_of events.

Definition syslog_texts (events : list event) : list (list byte) :=
  omap syslog_text_of events.

(** What a stimulus should leave in the file of a process that writes to
    one, and at syslog for a process that does not. *)
Definition file_payload (x : stimulus) : option (list byte) :=
  match x with
  | Datagram record _ => Some record
  | Diagnostic text => Some (c_string text)
  | Quiet _ => None
  end.

Definition syslog_payload (x : stimulus) : option (list byte) :=
  match x with
  | Datagram record _ => Some (c_string record)
  | _ => None
  end.

(** A record whose length fits an [int]. *)
Definition short (x : stimulus) : Prop :=
  match x with
  | Datagram record _ => Z.of_nat (length record) <= INT_MAX
  | _ => True
  end.

(** A call a process without a destination may make: syslog at the
    informational priority, or the postlog socket. *)
Definition informational (e : event) : Prop :=
  match e with
  | Syslog priority _ => priority = Z.lor LOG_MAIL LOG_INFO
  | Postlog_socket _ => True
  | _ => False
  end.

(** The process after a reload that changed the destination setting. *)
Definition reloaded (path : string) (p : process) : process :=
  Process (postlogd_stream p) (var_postlogd_watchdog p) (var_use_limit p)
    (var_idle_limit p) path (msg_logger_fallback_only p)
    (msg_logger_fallback_fn p) (use_count p) (trace p).

(** The process has no stream, and has written nothing. *)
Definition syslog_only (p : process) : Prop :=
  never_redirected p ∧ no_event to_append_target p.

(** The three stages of [main] that come before the service loop. *)
Definition startup (safe_open : string → option VSTREAM)
    (write_ok : list event → VSTREAM → list byte → bool)
    (cf : main_cf) (name : string) (argv : list string) : M unit :=
  (get_mail_conf_time write_ok cf
     (Config_time VAR_POSTLOGD_WATCHDOG DEF_POSTLOGD_WATCHDOG Var_postlogd_watchdog 10 0);;
   pre_jail_init safe_open write_ok name argv;;
   post_jail_init name argv)%C.

(** The state in which the loop starts, with and without a destination. *)
Definition started_with_file (cf : main_cf) (fp : VSTREAM) : process :=
  Process (Some fp) (watchdog_setting cf) 0 (cf_max_idle cf) (cf_maillog_file cf)
    true (Some Fn_postlogd_fallback) 0 (handshake (cf_maillog_file cf) fp).

Definition started_without_file (cf : main_cf) : process :=
  Process None (watchdog_setting cf) 0 (cf_max_idle cf) (cf_maillog_file cf)
    false None 0 [].

(** ** Sample worlds *)

(** File systems that open every path, or none; disks that take every
    write, or none; a main.cf with a destination, and one without. *)
Definition any_path_opens (path : string) : option VSTREAM := Some 1%positive.
Definition no_path_opens (path : string) : option VSTREAM := None.
Definition writes_succeed (before : list event) (fp : VSTREAM) (bytes : list byte) : bool := true.
Definition writes_fail (before : list event) (fp : VSTREAM) (bytes : list byte) : bool := false.

Definition cf_file : main_cf := Main_cf "/var/log/app.log" 100 100 ∅.
Definition cf_no_file : main_cf := Main_cf "" 100 100 ∅.
Definition cf_slow : main_cf :=
  Main_cf "" 100 100 {[ VAR_POSTLOGD_WATCHDOG := 30 ]}.

Definition bytes (s : string) : list byte := String.list_byte_of_string s.

(** * Properties *)

(** ** Facts about the C library functions *)

Lemma is_NUL_true (b : byte) : is_NUL b = true ↔ b = NUL.
Proof.
  unfold is_NUL. split.
  - apply Byte.byte_dec_bl.
  - apply Byte.byte_dec_lb.
Qed.

Lemma is_NUL_false (b : byte) : is_NUL b = false ↔ b ≠ NUL.
Proof.
  rewrite <- is_NUL_true. destruct (is_NUL b); split; congruence.
Qed.

Lemma strlen_terminated (text rest : list byte) :
  NUL ∉ text → strlen (text ++ NUL :: rest) = Some (Z.of_nat (length text)).
Proof.
  induction text as [|b text IH]; intros Hnul; simpl.
  - reflexivity.
  - apply not_elem_of_cons in Hnul as [Hb Htext].
    apply not_eq_sym, is_NUL_false in Hb. rewrite Hb, (IH Htext). simpl.
    f_equal. lia.
Qed.

Lemma strlen_unterminated (buf : list byte) :
  NUL ∉ buf → strlen buf = None.
Proof.
  induction buf as [|b buf IH]; intros Hnul; simpl.
  - reflexivity.
  - apply not_elem_of_cons in Hnul as [Hb Hbuf].
    apply not_eq_sym, is_NUL_false in Hb. rewrite Hb, (IH Hbuf). reflexivity.
Qed.

Lemma strlen_bounds (buf : list byte) (n : Z) :
  strlen buf = Some n → 0 <= n < Z.of_nat (length buf).
Proof.
  revert n. induction buf as [|b buf IH]; intros n; simpl.
  - discriminate.
  - destruct (is_NUL b).
    + intros [= <-]. lia.
    + destruct (strlen buf) as [m|]; simpl; [|discriminate].
      intros [= <-]. specialize (IH m eq_refl). lia.
Qed.

Lemma strlen_take (buf : list byte) (n : Z) :
  strlen buf = Some n → take (Z.to_nat n) buf = c_string buf.
Proof.
  revert n. induction buf as [|b buf IH]; intros n; simpl.
  - discriminate.
  - destruct (is_NUL b).
    + intros [= <-]. reflexivity.
    + destruct (strlen buf) as [m|] eqn:Hm; simpl; [|discriminate].
      intros [= <-]. pose proof (strlen_bounds buf m Hm).
      rewrite Z2Nat.inj_succ by lia. simpl. f_equal. apply IH. reflexivity.
Qed.

Lemma c_string_terminated (text rest : list byte) :
  NUL ∉ text → c_string (text ++ NUL :: rest) = text.
Proof.
  induction text as [|b text IH]; intros Hnul; simpl.
  - reflexivity.
  - apply not_elem_of_cons in Hnul as [Hb Htext].
    apply not_eq_sym, is_NUL_false in Hb. rewrite Hb, (IH Htext). reflexivity.
Qed.

Lemma c_string_clean (text : list byte) :
  NUL ∉ text → c_string text = text.
Proof.
  induction text as [|b text IH]; intros Hnul; simpl.
  - reflexivity.
  - apply not_elem_of_cons in Hnul as [Hb Htext].
    apply not_eq_sym, is_NUL_false in Hb. rewrite Hb, (IH Htext). reflexivity.
Qed.

Lemma format_precision_s_take (prec : nat) (buf : list byte) :
  (prec <= length buf)%nat →
  format_precision_s prec buf = Some (c_string (take prec buf)).
Proof.
  revert buf. induction prec as [|prec IH]; intros buf Hlen; simpl.
  - reflexivity.
  - destruct buf as [|b buf]; simpl in *; [lia|].
    destruct (is_NUL b); [reflexivity|].
    rewrite IH by lia. reflexivity.
Qed.

Lemma int_of_ssize_t_small (len : Z) :
  0 <= len <= INT_MAX → int_of_ssize_t len = len.
Proof.
  intros Hlen. unfold int_of_ssize_t, INT_MAX in *.
  rewrite Z.mod_small by lia. rewrite decide_True by lia. reflexivity.
Qed.

Lemma format_record (buf : list byte) (len : Z) :
  0 <= len <= Z.of_nat (length buf) → len <= INT_MAX →
  format_dot_star_s (int_of_ssize_t len) buf = Some (c_string (take (Z.to_nat len) buf)).
Proof.
  intros Hlen Hint. rewrite int_of_ssize_t_small by lia.
  unfold format_dot_star_s. rewrite decide_False by lia.
  apply format_precision_s_take. lia.
Qed.

(** ** Invariants through the monad *)

Lemma triple_ret {A} (P : process → Prop) (a : A) Q E :
  (∀ p, P p → Q a p) → triple P (ret a) Q E.
Proof. intros H p Hp. apply H, Hp. Qed.

Lemma triple_stop {A} (P : process → Prop) (t : termination) (Q : A → process → Prop) E :
  (∀ p, P p → E t p) → triple P (stop t) Q E.
Proof. intros H p Hp. apply H, Hp. Qed.

Lemma triple_bind {A B} (P : process → Prop) (m : M A) (k : A → M B)
    (R : A → process → Prop) Q E :
  triple P m R E → (∀ a, triple (R a) (k a) Q E) → triple P (bind m k) Q E.
Proof.
  intros Hm Hk p Hp. unfold bind. specialize (Hm p Hp).
  destruct (m p) as [[a|t] q].
  - apply Hk, Hm.
  - exact Hm.
Qed.

Lemma triple_weaken {A} (P P' : process → Prop) (m : M A)
    (Q Q' : A → process → Prop) (E E' : termination → process → Prop) :
  triple P' m Q' E' →
  (∀ p, P p → P' p) → (∀ a p, Q' a p → Q a p) → (∀ t p, E' t p → E t p) →
  triple P m Q E.
Proof.
  intros Hm HP HQ HE p Hp. specialize (Hm p (HP p Hp)).
  destruct (m p) as [[a|t] q]; [apply HQ | apply HE]; exact Hm.
Qed.

Lemma extends_by_refl (P : event → Prop) (p : process) : extends_by P p p.
Proof. exists []. split; [symmetry; apply app_nil_r | constructor]. Qed.

Lemma extends_by_trans (P : event → Prop) (p q r : process) :
  extends_by P p q → extends_by P q r → extends_by P p r.
Proof.
  intros (n1 & H1 & F1) (n2 & H2 & F2). exists (n1 ++ n2). split.
  - rewrite H2, H1. symmetry. apply app_assoc.
  - apply Forall_app. split; assumption.
Qed.

Lemma extends_by_event (P : event → Prop) (e : event) (p : process) :
  P e → extends_by P p (record_event e p).
Proof. intros He. exists [e]. split; [reflexivity | repeat constructor; exact He]. Qed.

(** ** The routing decision *)

Section Routing.

Context (write_ok : list event → VSTREAM → list byte → bool).

Lemma logwriter_write_returns (fp : VSTREAM) (buf : list byte) (len : Z) (p : process) :
  0 <= len <= Z.of_nat (length buf) →
  let bytes := take (Z.to_nat len) buf in
  let status := write_status write_ok p fp bytes in
  logwriter_write write_ok (Some fp) buf len p
  = (Ret status, record_event (Logwriter_write fp bytes status) p).
Proof.
  intros Hlen. unfold logwriter_write.
  rewrite decide_False by lia. rewrite decide_False by lia. reflexivity.
Qed.

Lemma postlogd_service_appends (fp : VSTREAM) (buf : list byte) (len : Z)
    (name : string) (argv : list string) (p : process) :
  postlogd_stream p = Some fp →
  0 <= len <= Z.of_nat (length buf) →
  let bytes := take (Z.to_nat len) buf in
  postlogd_service write_ok buf len name argv p
  = (Ret tt, record_event (Logwriter_write fp bytes (write_status write_ok p fp bytes)) p).
Proof.
  intros Hfp Hlen. unfold postlogd_service, bind, gets. rewrite Hfp.
  rewrite logwriter_write_returns by exact Hlen. reflexivity.
Qed.

Lemma postlogd_service_syslogs (buf : list byte) (len : Z)
    (name : string) (argv : list string) (p : process) :
  postlogd_stream p = None →
  0 <= len <= Z.of_nat (length buf) → len <= INT_MAX →
  postlogd_service write_ok buf len name argv p
  = (Ret tt, record_event (Syslog (Z.lor LOG_MAIL LOG_INFO)
                             (c_string (take (Z.to_nat len) buf))) p).
Proof.
  intros Hfp Hlen Hint. unfold postlogd_service, bind, gets. rewrite Hfp.
  unfold syslog_dot_star_s. rewrite format_record by assumption. reflexivity.
Qed.

Lemma postlogd_fallback_appends (fp : VSTREAM) (buf : list byte) (len : Z) (p : process) :
  postlogd_stream p = Some fp → strlen buf = Some len →
  postlogd_fallback write_ok buf p
  = (Ret tt, record_event (Logwriter_write fp (c_string buf)
                             (write_status write_ok p fp (c_string buf))) p).
Proof.
  intros Hfp Hlen. unfold postlogd_fallback, bind, gets. rewrite Hfp, Hlen.
  pose proof (strlen_bounds buf len Hlen).
  rewrite logwriter_write_returns by lia.
  rewrite (strlen_take buf len Hlen). reflexivity.
Qed.

(** C2.  Each record goes to exactly one sink: the service routine
    returns having made one call, to the logwriter or to syslog and
    never to both; with the stream open the call is
    [logwriter_write] on that stream with the [len] bytes of the
    record, and syslog is not called. *)
Theorem postlogd_service_one_sink (buf : list byte) (len : Z)
    (name : string) (argv : list string) (p : process) :
  0 <= len <= Z.of_nat (length buf) → len <= INT_MAX →
  ∃ e : event,
    postlogd_service write_ok buf len name argv p = (Ret tt, record_event e p) ∧
    xorb (to_append_target e) (to_fallback_sink e) = true ∧
    (∀ fp, postlogd_stream p = Some fp →
       let bytes := take (Z.to_nat len) buf in
       e = Logwriter_write fp bytes (write_status write_ok p fp bytes) ∧
       to_fallback_sink e = false) ∧
    (postlogd_stream p = None →
       to_fallback_sink e = true ∧ to_append_target e = false).
Proof.
  intros Hlen Hint. destruct (postlogd_stream p) as [fp|] eqn:Hfp.
  - eexists. split; [apply (postlogd_service_appends fp); assumption|].
    split; [reflexivity|]. split.
    + intros fp' [= <-]. split; reflexivity.
    + discriminate.
  - eexists. split; [apply postlogd_service_syslogs; assumption|].
    split; [reflexivity|]. split.
    + discriminate.
    + intros _. split; reflexivity.
Qed.

(** C3, as the code has it.  With no stream, the record goes to syslog
    with priority [LOG_MAIL | LOG_INFO], which is the mail facility at
    the info level; the text is the record up to its first NUL, that
    is, all [len] bytes when the record holds no NUL. *)
Theorem postlogd_service_syslog_text (buf : list byte) (len : Z)
    (name : string) (argv : list string) (p : process) :
  postlogd_stream p = None →
  0 <= len <= Z.of_nat (length buf) → len <= INT_MAX →
  let record := take (Z.to_nat len) buf in
  ∃ priority text,
    postlogd_service write_ok buf len name argv p
    = (Ret tt, record_event (Syslog priority text) p) ∧
    LOG_FAC priority = Z.shiftr LOG_MAIL 3 ∧ LOG_PRI priority = LOG_INFO ∧
    text = c_string record ∧
    (NUL ∉ record → text = record) ∧
    (∀ before after, NUL ∉ before → record = before ++ NUL :: after → text = before).
Proof.
  intros Hfp Hlen Hint record.
  exists (Z.lor LOG_MAIL LOG_INFO), (c_string record).
  split; [apply postlogd_service_syslogs; assumption|].
  split; [reflexivity|]. split; [reflexivity|]. split; [reflexivity|]. split.
  - apply c_string_clean.
  - intros before after Hclean ->. apply c_string_terminated, Hclean.
Qed.

(** C9.  The fallback writer measures its buffer with [strlen]: of a
    NUL-terminated buffer it writes the bytes before the first NUL and
    drops what follows; a buffer without a NUL is read past its end.
    The service routine, given the same bytes with their length,
    writes them all. *)
Theorem postlogd_fallback_stops_at_NUL (fp : VSTREAM) (text rest : list byte)
    (name : string) (argv : list string) (p : process) :
  postlogd_stream p = Some fp → NUL ∉ text →
  let buf := text ++ NUL :: rest in
  postlogd_fallback write_ok buf p
  = (Ret tt, record_event (Logwriter_write fp text (write_status write_ok p fp text)) p) ∧
  postlogd_fallback write_ok text p = (Stop (Crash Read_past_end), p) ∧
  postlogd_service write_ok buf (Z.of_nat (length buf)) name argv p
  = (Ret tt, record_event (Logwriter_write fp buf (write_status write_ok p fp buf)) p).
Proof.
  intros Hfp Hclean buf. split; [|split].
  - rewrite (postlogd_fallback_appends fp buf (Z.of_nat (length text)) p Hfp)
      by (apply strlen_terminated, Hclean).
    unfold buf. rewrite (c_string_terminated text rest Hclean). reflexivity.
  - unfold postlogd_fallback, bind, gets.
    rewrite (strlen_unterminated text Hclean). reflexivity.
  - rewrite (postlogd_service_appends fp) by (assumption || lia).
    rewrite Nat2Z.id, firstn_all. reflexivity.
Qed.

End Routing.

(** ** The life of the process *)

(** Symbolic execution of the straight-line functions: unfold them and
    split on every test whose outcome is not known. *)
Ltac unfold_program :=
  unfold dgram_server_wakeup, get_mail_conf_time, pre_jail_init, post_jail_init,
    postlogd_service, logwriter_open, msg_logger_control, msg_fatal,
    msg_logger_print, call, postlogd_fallback, syslog_dot_star_s,
    logwriter_write, watchdog_expires, emit, modify, gets, stop, ret, bind.

Ltac split_path :=
  match goal with
  | |- context [match ?x with _ => _ end] =>
      lazymatch x with
      | context [match _ with _ => _ end] => fail
      | _ => destruct x eqn:?
      end
  end.

Ltac reduce_state :=
  cbn beta iota zeta delta
    [foldl msg_logger_apply record_event set_msg_logger set_postlogd_stream
     set_use_count store load postlogd_stream var_postlogd_watchdog
     var_use_limit var_idle_limit var_maillog_file msg_logger_fallback_only
     msg_logger_fallback_fn use_count trace fst snd
     ctt_name ctt_defval ctt_target ctt_min ctt_max].

Ltac tests_to_props :=
  repeat match goal with
         | H : bool_decide _ = true |- _ => apply bool_decide_eq_true in H
         | H : bool_decide _ = false |- _ => apply bool_decide_eq_false in H
         end.

Ltac run_paths :=
  unfold_program; reduce_state; repeat (split_path; reduce_state); tests_to_props.

Section Lifetime.

Context (safe_open : string → option VSTREAM).
Context (write_ok : list event → VSTREAM → list byte → bool).

Lemma dgram_server_loop_nil (service : service_fn) (name : string)
    (argv : list string) (timeout : option int_var) (p : process) :
  dgram_server_loop write_ok service name argv timeout [] p
  = if use_limit_reached p then (Stop Use_limit_exit, p) else (Ret tt, p).
Proof. unfold use_limit_reached. simpl. unfold bind, gets. case_bool_decide; reflexivity. Qed.

Lemma dgram_server_loop_cons (service : service_fn) (name : string)
    (argv : list string) (timeout : option int_var) (x : stimulus)
    (rest : list stimulus) (p : process) :
  dgram_server_loop write_ok service name argv timeout (x :: rest) p
  = if use_limit_reached p then (Stop Use_limit_exit, p)
    else match dgram_server_wakeup write_ok service name argv timeout x p with
         | (Ret _, q) => dgram_server_loop write_ok service name argv timeout rest q
         | (Stop t, q) => (Stop t, q)
         end.
Proof. unfold use_limit_reached. simpl. unfold bind, gets. case_bool_decide; reflexivity. Qed.

(** Induction over the service loop: an invariant that every wake-up
    keeps is kept by the loop, for the stimuli the inbox holds. *)
Lemma dgram_server_loop_rule (I : process → Prop) (E : termination → process → Prop)
    (S : stimulus → Prop) (service : service_fn) (name : string)
    (argv : list string) (timeout : option int_var) :
  (∀ x, S x → triple I (dgram_server_wakeup write_ok service name argv timeout x)
                (λ _, I) E) →
  (∀ p, I p → var_use_limit p ≠ 0 → var_use_limit p <= use_count p →
        E Use_limit_exit p) →
  ∀ inbox, Forall S inbox →
    triple I (dgram_server_loop write_ok service name argv timeout inbox) (λ _, I) E.
Proof.
  intros Hwake Hlimit inbox Hinbox.
  induction Hinbox as [|x rest Hx Hrest IH]; intros p Hp.
  - rewrite dgram_server_loop_nil. unfold use_limit_reached.
    case_bool_decide as Hfull; [apply Hlimit; [exact Hp | apply Hfull..] | exact Hp].
  - rewrite dgram_server_loop_cons. unfold use_limit_reached.
    case_bool_decide as Hfull; [apply Hlimit; [exact Hp | apply Hfull..]|].
    specialize (Hwake x Hx p Hp).
    destruct (dgram_server_wakeup _ _ _ _ _ x p) as [[u|t] q].
    + apply IH, Hwake.
    + exact Hwake.
Qed.

(** The loop over a longer inbox goes on from where the loop over its
    beginning stood, when that one was still accepting. *)
Lemma dgram_server_loop_app (service : service_fn) (name : string)
    (argv : list string) (timeout : option int_var) (first rest : list stimulus)
    (p q : process) :
  dgram_server_loop write_ok service name argv timeout first p = (Ret tt, q) →
  dgram_server_loop write_ok service name argv timeout (first ++ rest) p
  = dgram_server_loop write_ok service name argv timeout rest q.
Proof.
  revert p. induction first as [|x first IH]; intros p.
  - rewrite dgram_server_loop_nil.
    destruct (use_limit_reached p); [discriminate|]. intros [= <-]. reflexivity.
  - simpl app. rewrite !dgram_server_loop_cons.
    destruct (use_limit_reached p); [discriminate|].
    destruct (dgram_server_wakeup _ _ _ _ _ x p) as [[u|t] p'].
    + apply IH.
    + discriminate.
Qed.

(** [main], with the skeleton's pass over its arguments carried out. *)
Lemma main_steps (cf : main_cf) (name : string) (argv : list string)
    (inbox : list stimulus) (p : process) :
  main safe_open write_ok cf name argv inbox p
  = (get_mail_conf_time write_ok cf
       (Config_time VAR_POSTLOGD_WATCHDOG DEF_POSTLOGD_WATCHDOG Var_postlogd_watchdog 10 0);;
     pre_jail_init safe_open write_ok name argv;;
     post_jail_init name argv;;
     dgram_server_loop write_ok (postlogd_service write_ok) name argv
       (Some Var_postlogd_watchdog) inbox) p.
Proof.
  unfold main, dgram_server_main. simpl. unfold bind.
  destruct (get_mail_conf_time _ _ _ p) as [[[]|t] q]; reflexivity.
Qed.

(** [main] keeps what its four stages keep. *)
Lemma main_rule (P R1 R2 I : process → Prop) (E : termination → process → Prop)
    (S : stimulus → Prop) (cf : main_cf) (name : string) (argv : list string) :
  triple P (get_mail_conf_time write_ok cf
              (Config_time VAR_POSTLOGD_WATCHDOG DEF_POSTLOGD_WATCHDOG
                 Var_postlogd_watchdog 10 0)) (λ _, R1) E →
  triple R1 (pre_jail_init safe_open write_ok name argv) (λ _, R2) E →
  triple R2 (post_jail_init name argv) (λ _, I) E →
  (∀ x, S x → triple I (dgram_server_wakeup write_ok (postlogd_service write_ok)
                          name argv (Some Var_postlogd_watchdog) x) (λ _, I) E) →
  (∀ p, I p → var_use_limit p ≠ 0 → var_use_limit p <= use_count p →
        E Use_limit_exit p) →
  ∀ inbox, Forall S inbox →
    triple P (main safe_open write_ok cf name argv inbox) (λ _, I) E.
Proof.
  intros Htable Hpre Hpost Hwake Hlimit inbox Hinbox p Hp.
  rewrite main_steps. revert p Hp.
  apply (triple_bind P _ _ (λ _, R1)); [exact Htable | intros _].
  apply (triple_bind R1 _ _ (λ _, R2)); [exact Hpre | intros _].
  apply (triple_bind R2 _ _ (λ _, I)); [exact Hpost | intros _].
  apply (dgram_server_loop_rule I E S); assumption.
Qed.

Lemma Forall_any (inbox : list stimulus) : Forall (λ _, True) inbox.
Proof. apply Forall_true. trivial. Qed.

(** *** Running without a destination *)

Lemma never_redirected_event (e : event) (p : process) :
  opens_target e = false → registers_writer e = false →
  never_redirected p → never_redirected (record_event e p).
Proof.
  intros He1 He2 (Hfp & Hmode & Hpath & Hopen & Hreg).
  repeat split; try assumption; try apply Hmode;
    apply Forall_app; split; try assumption; repeat constructor; assumption.
Qed.

Lemma never_redirected_store (x : int_var) (v : Z) (p : process) :
  never_redirected p → never_redirected (store x v p).
Proof. intros Hp. destruct x; exact Hp. Qed.

Lemma never_redirected_count (n : Z) (p : process) :
  never_redirected p → never_redirected (set_use_count n p).
Proof. intros Hp. exact Hp. Qed.

Ltac never_redirected_paths :=
  let p := fresh "p" in
  let Hp := fresh "Hp" in
  intros p Hp; pose proof Hp as (? & [? ?] & ? & _);
  run_paths; try congruence;
  repeat first [ exact Hp
               | apply never_redirected_store
               | apply never_redirected_count
               | apply never_redirected_event; [reflexivity | reflexivity |] ].

Lemma never_redirected_table (cf : main_cf) (row : CONFIG_TIME_TABLE) :
  triple never_redirected (get_mail_conf_time write_ok cf row)
    (λ _, never_redirected) (λ _, never_redirected).
Proof. never_redirected_paths. Qed.

Lemma never_redirected_pre_jail_init (name : string) (argv : list string) :
  triple never_redirected (pre_jail_init safe_open write_ok name argv)
    (λ _, never_redirected) (λ _, never_redirected).
Proof. never_redirected_paths. Qed.

Lemma never_redirected_post_jail_init (name : string) (argv : list string) :
  triple never_redirected (post_jail_init name argv)
    (λ _, never_redirected) (λ _, never_redirected).
Proof. never_redirected_paths. Qed.

Lemma never_redirected_wakeup (name : string) (argv : list string)
    (timeout : option int_var) (x : stimulus) :
  triple never_redirected
    (dgram_server_wakeup write_ok (postlogd_service write_ok) name argv timeout x)
    (λ _, never_redirected) (λ _, never_redirected).
Proof. never_redirected_paths. Qed.

Lemma never_redirected_main (cf : main_cf) (name : string) (argv : list string)
    (inbox : list stimulus) :
  triple never_redirected (main safe_open write_ok cf name argv inbox)
    (λ _, never_redirected) (λ _, never_redirected).
Proof.
  apply (main_rule never_redirected never_redirected never_redirected never_redirected
           (λ _, never_redirected) (λ _, True)).
  - apply never_redirected_table.
  - apply never_redirected_pre_jail_init.
  - apply never_redirected_post_jail_init.
  - intros x _. apply never_redirected_wakeup.
  - intros p Hp _ _. exact Hp.
  - apply Forall_any.
Qed.

(** C5.  With an empty destination path, [pre_jail_init] returns
    without touching the process: the stream stays unset, no file is
    opened, no writer is registered.  Through the whole run that
    follows, whatever arrives, the stream is unset, no open and no
    registration is ever made, and the msg_logger client stays on the
    shared channel. *)
Theorem empty_path_leaves_shared_channel (cf : main_cf) (name : string)
    (argv : list string) (inbox : list stimulus) :
  cf_maillog_file cf = "" →
  (∀ q, var_maillog_file q = "" →
        pre_jail_init safe_open write_ok name [] q = (Ret tt, q)) ∧
  let p := (run safe_open write_ok cf name argv inbox).2 in
  postlogd_stream p = None ∧ use_shared_channel p ∧
  no_event opens_target p ∧ no_event registers_writer p.
Proof.
  intros Hpath. split.
  - intros q Hq. unfold pre_jail_init, bind, gets, ret. rewrite Hq. reflexivity.
  - assert (never_redirected (process_start cf)) as Hstart.
    { repeat split; try exact Hpath; constructor. }
    pose proof (never_redirected_main cf name argv inbox _ Hstart) as Hrun.
    unfold run. destruct (main _ _ _ _ _ _ _) as [[u|t] q]; simpl;
      destruct Hrun as (Hfp & Hmode & _ & Hopen & Hreg); auto.
Qed.

(** *** The fallback writer and its stream *)

Ltac writer_has_stream_paths :=
  let p := fresh "p" in
  let Hp := fresh "Hp" in
  intros p Hp; unfold stops_with_stream, writer_has_stream in *;
  run_paths; reduce_state;
  try (destruct (ctt_target _); reduce_state);
  intuition congruence.

Lemma writer_has_stream_table (cf : main_cf) (row : CONFIG_TIME_TABLE) :
  triple writer_has_stream (get_mail_conf_time write_ok cf row)
    (λ _, writer_has_stream) stops_with_stream.
Proof. writer_has_stream_paths. Qed.

Lemma writer_has_stream_pre_jail_init (name : string) (argv : list string) :
  triple writer_has_stream (pre_jail_init safe_open write_ok name argv)
    (λ _, writer_has_stream) stops_with_stream.
Proof. writer_has_stream_paths. Qed.

Lemma writer_has_stream_post_jail_init (name : string) (argv : list string) :
  triple writer_has_stream (post_jail_init name argv)
    (λ _, writer_has_stream) stops_with_stream.
Proof. writer_has_stream_paths. Qed.

Lemma writer_has_stream_wakeup (name : string) (argv : list string)
    (timeout : option int_var) (x : stimulus) :
  triple writer_has_stream
    (dgram_server_wakeup write_ok (postlogd_service write_ok) name argv timeout x)
    (λ _, writer_has_stream) stops_with_stream.
Proof. writer_has_stream_paths. Qed.

Lemma writer_has_stream_main (cf : main_cf) (name : string) (argv : list string)
    (inbox : list stimulus) :
  triple writer_has_stream (main safe_open write_ok cf name argv inbox)
    (λ _, writer_has_stream) stops_with_stream.
Proof.
  apply (main_rule writer_has_stream writer_has_stream writer_has_stream
           writer_has_stream stops_with_stream (λ _, True)).
  - apply writer_has_stream_table.
  - apply writer_has_stream_pre_jail_init.
  - apply writer_has_stream_post_jail_init.
  - intros x _. apply writer_has_stream_wakeup.
  - intros p Hp _ _. split; [exact Hp | discriminate].
  - apply Forall_any.
Qed.

(** C10.  At every point of every run, the fallback writer is
    registered only if the stream is set; no run ends in a write through
    a null stream, and wherever the writer is registered, calling it on
    any buffer does not write through a null stream either. *)
Theorem fallback_never_writes_null_stream (cf : main_cf) (name : string)
    (argv : list string) (inbox : list stimulus) :
  let r := (run safe_open write_ok cf name argv inbox).1 in
  let p := (run safe_open write_ok cf name argv inbox).2 in
  (msg_logger_fallback_fn p ≠ None → postlogd_stream p ≠ None) ∧
  r ≠ Stop (Crash Null_stream) ∧
  (∀ fn buf, msg_logger_fallback_fn p = Some fn →
             (call write_ok fn buf p).1 ≠ Stop (Crash Null_stream)).
Proof.
  assert (writer_has_stream (process_start cf)) as Hstart.
  { intros Hfn. contradiction Hfn. reflexivity. }
  pose proof (writer_has_stream_main cf name argv inbox _ Hstart) as Hrun.
  unfold run. destruct (main _ _ _ _ _ _ _) as [[u|t] q]; simpl.
  - split; [exact Hrun|]. split; [discriminate|].
    intros fn buf Hfn. assert (postlogd_stream q ≠ None) as Hfp
      by (apply Hrun; congruence).
    destruct fn. run_paths; simpl; congruence.
  - destruct Hrun as [Hq Ht]. split; [exact Hq|]. split; [congruence|].
    intros fn buf Hfn. assert (postlogd_stream q ≠ None) as Hfp
      by (apply Hq; congruence).
    destruct fn. run_paths; simpl; congruence.
Qed.

(** *** The life-cycle settings *)

Ltac lifecycle_paths :=
  let p := fresh "p" in
  let Hp := fresh "Hp" in
  intros p Hp;
  unfold ends_in_time, ends_settled, accepting, lifecycle, watchdog_setting,
    VAR_POSTLOGD_WATCHDOG, DEF_POSTLOGD_WATCHDOG, within in *;
  run_paths; reduce_state;
  intuition (congruence || lia).

Lemma lifecycle_table (cf : main_cf) (idle : Z) :
  triple (λ p, var_idle_limit p = idle)
    (get_mail_conf_time write_ok cf
       (Config_time VAR_POSTLOGD_WATCHDOG DEF_POSTLOGD_WATCHDOG Var_postlogd_watchdog 10 0))
    (λ _, lifecycle idle (watchdog_setting cf))
    (ends_in_time idle (watchdog_setting cf)).
Proof. lifecycle_paths. Qed.

Lemma lifecycle_pre_jail_init (idle timeout : Z) (name : string) (argv : list string) :
  triple (lifecycle idle timeout) (pre_jail_init safe_open write_ok name argv)
    (λ _, lifecycle idle timeout) (ends_in_time idle timeout).
Proof. lifecycle_paths. Qed.

Lemma lifecycle_post_jail_init (idle timeout : Z) (name : string) (argv : list string) :
  triple (lifecycle idle timeout) (post_jail_init name argv)
    (λ _, accepting idle timeout) (ends_in_time idle timeout).
Proof. lifecycle_paths. Qed.

Lemma accepting_wakeup (idle timeout : Z) (name : string) (argv : list string)
    (x : stimulus) :
  triple (accepting idle timeout)
    (dgram_server_wakeup write_ok (postlogd_service write_ok) name argv
       (Some Var_postlogd_watchdog) x)
    (λ _, accepting idle timeout) (ends_settled idle timeout).
Proof. lifecycle_paths. Qed.

Lemma accepting_wakeup_in_time (idle timeout : Z) (name : string) (argv : list string)
    (x : stimulus) :
  within timeout x →
  triple (accepting idle timeout)
    (dgram_server_wakeup write_ok (postlogd_service write_ok) name argv
       (Some Var_postlogd_watchdog) x)
    (λ _, accepting idle timeout) (ends_in_time idle timeout).
Proof. intros Hx. lifecycle_paths. Qed.

Lemma ends_in_time_settled (idle timeout : Z) (t : termination) (p : process) :
  ends_in_time idle timeout t p → ends_settled idle timeout t p.
Proof. intros [H _]. exact H. Qed.

Lemma accepting_main (cf : main_cf) (name : string) (argv : list string)
    (inbox : list stimulus) :
  triple (λ p, var_idle_limit p = cf_max_idle cf)
    (main safe_open write_ok cf name argv inbox)
    (λ _, accepting (cf_max_idle cf) (watchdog_setting cf))
    (ends_settled (cf_max_idle cf) (watchdog_setting cf)).
Proof.
  set (idle := cf_max_idle cf). set (timeout := watchdog_setting cf).
  apply (main_rule _ (lifecycle idle timeout) (lifecycle idle timeout)
           (accepting idle timeout) (ends_settled idle timeout) (λ _, True)).
  - eapply triple_weaken;
      [apply lifecycle_table | intros ? H; exact H | intros ? ? H; exact H
      | intros ? ?; apply ends_in_time_settled].
  - eapply triple_weaken;
      [apply lifecycle_pre_jail_init | intros ? H; exact H | intros ? ? H; exact H
      | intros ? ?; apply ends_in_time_settled].
  - eapply triple_weaken;
      [apply lifecycle_post_jail_init | intros ? H; exact H | intros ? ? H; exact H
      | intros ? ?; apply ends_in_time_settled].
  - intros x _. apply accepting_wakeup.
  - intros p [_ Hlimit] Hset _. contradiction.
  - apply Forall_any.
Qed.

Lemma accepting_main_in_time (cf : main_cf) (name : string) (argv : list string)
    (inbox : list stimulus) :
  Forall (within (watchdog_setting cf)) inbox →
  triple (λ p, var_idle_limit p = cf_max_idle cf)
    (main safe_open write_ok cf name argv inbox)
    (λ _, accepting (cf_max_idle cf) (watchdog_setting cf))
    (ends_in_time (cf_max_idle cf) (watchdog_setting cf)).
Proof.
  set (idle := cf_max_idle cf). set (timeout := watchdog_setting cf).
  apply (main_rule _ (lifecycle idle timeout) (lifecycle idle timeout)
           (accepting idle timeout) (ends_in_time idle timeout) (within timeout)).
  - apply lifecycle_table.
  - apply lifecycle_pre_jail_init.
  - apply lifecycle_post_jail_init.
  - intros x Hx. apply accepting_wakeup_in_time, Hx.
  - intros p [_ Hlimit] Hset _. contradiction.
Qed.

(** The run over a longer inbox goes on from where the run over its
    beginning stood, when that one was still accepting. *)
Lemma main_app (cf : main_cf) (name : string) (argv : list string)
    (first rest : list stimulus) (p q : process) :
  main safe_open write_ok cf name argv first p = (Ret tt, q) →
  main safe_open write_ok cf name argv (first ++ rest) p
  = dgram_server_loop write_ok (postlogd_service write_ok) name argv
      (Some Var_postlogd_watchdog) rest q.
Proof.
  rewrite !main_steps. unfold bind.
  destruct (get_mail_conf_time _ _ _ p) as [[u1|t1] p1]; [|discriminate].
  destruct (pre_jail_init _ _ _ _ p1) as [[u2|t2] p2]; [|discriminate].
  destruct (post_jail_init _ _ p2) as [[u3|t3] p3]; [|discriminate].
  apply dgram_server_loop_app.
Qed.

(** C7.  [post_jail_init] returns with the use limit at zero and every
    other global, the idle limit among them, as it was, and makes no
    call.  In the run, the use-limit policy then never ends the process,
    and the idle limit stays the one the skeleton configured. *)
Theorem post_jail_init_disables_use_limit (cf : main_cf) (name : string)
    (argv : list string) (inbox : list stimulus) (p : process) :
  (∃ q, post_jail_init name argv p = (Ret tt, q) ∧
        var_use_limit q = 0 ∧
        var_idle_limit q = var_idle_limit p ∧
        var_postlogd_watchdog q = var_postlogd_watchdog p ∧
        postlogd_stream q = postlogd_stream p ∧
        var_maillog_file q = var_maillog_file p ∧
        msg_logger_fallback_only q = msg_logger_fallback_only p ∧
        msg_logger_fallback_fn q = msg_logger_fallback_fn p ∧
        use_count q = use_count p ∧
        trace q = trace p) ∧
  (run safe_open write_ok cf name argv inbox).1 ≠ Stop Use_limit_exit ∧
  var_idle_limit (run safe_open write_ok cf name argv inbox).2 = cf_max_idle cf ∧
  ((run safe_open write_ok cf name argv inbox).1 = Ret tt →
   var_use_limit (run safe_open write_ok cf name argv inbox).2 = 0).
Proof.
  split.
  - eexists. split; [reflexivity|]. repeat split.
  - pose proof (accepting_main cf name argv inbox (process_start cf) eq_refl) as Hrun.
    unfold run. destruct (main _ _ _ _ _ _ _) as [[u|t] q]; simpl.
    + destruct Hrun as [[Hidle _] Hlimit]. split; [discriminate|]. split; [exact Hidle|].
      intros _. exact Hlimit.
    + destruct Hrun as (Hidle & _ & Ht). split; [congruence|]. split; [exact Hidle|].
      discriminate.
Qed.


Lemma accepting_not_full (idle timeout : Z) (p : process) :
  accepting idle timeout p → use_limit_reached p = false.
Proof.
  intros [_ Hlimit]. unfold use_limit_reached.
  apply bool_decide_eq_false. tauto.
Qed.

Lemma wakeup_datagram_late (idle timeout : Z) (name : string) (argv : list string)
    (record : list byte) (elapsed : Z) (p : process) :
  accepting idle timeout p → timeout < elapsed →
  dgram_server_wakeup write_ok (postlogd_service write_ok) name argv
    (Some Var_postlogd_watchdog) (Datagram record elapsed) p
  = (Stop Watchdog_expired, p).
Proof.
  intros [[_ Htimeout] _] Hlate.
  unfold dgram_server_wakeup, bind, gets, watchdog_expires, load.
  rewrite Htimeout, bool_decide_eq_true_2 by exact Hlate. reflexivity.
Qed.

Lemma wakeup_datagram_in_time (idle timeout : Z) (name : string) (argv : list string)
    (record : list byte) (elapsed : Z) (p : process) :
  accepting idle timeout p → elapsed <= timeout →
  Z.of_nat (length record) <= INT_MAX →
  ∃ e, dgram_server_wakeup write_ok (postlogd_service write_ok) name argv
         (Some Var_postlogd_watchdog) (Datagram record elapsed) p
       = (Ret tt, set_use_count (use_count p + 1) (record_event e p)).
Proof.
  intros [[_ Htimeout] _] Hintime Hlen.
  unfold dgram_server_wakeup, bind at 1, gets, watchdog_expires, load.
  rewrite Htimeout, bool_decide_eq_false_2 by lia.
  unfold bind. destruct (postlogd_stream p) as [fp|] eqn:Hfp.
  - rewrite (postlogd_service_appends write_ok fp) by (assumption || lia).
    eexists. reflexivity.
  - rewrite postlogd_service_syslogs by (assumption || lia).
    eexists. reflexivity.
Qed.

(** C8.  The timeout is the value main.cf gives the parameter
    postlogd_watchdog_timeout, and 10 when main.cf does not set it; the
    process holds it in [var_postlogd_watchdog], the variable the
    skeleton's watchdog reads.  A run whose requests all stay within the
    timeout is never ended by the watchdog; a request within the timeout
    leaves the process accepting; a request that exceeds it ends the
    process. *)
Theorem watchdog_timeout_enforced (cf : main_cf) (name : string)
    (argv : list string) (inbox : list stimulus) :
  let timeout := watchdog_setting cf in
  let life := run safe_open write_ok cf name argv in
  (cf_time cf !! VAR_POSTLOGD_WATCHDOG = None → timeout = 10) ∧
  (∀ v, cf_time cf !! VAR_POSTLOGD_WATCHDOG = Some v → timeout = v) ∧
  (10 <= timeout → var_postlogd_watchdog (life inbox).2 = timeout) ∧
  (Forall (within timeout) inbox → (life inbox).1 ≠ Stop Watchdog_expired) ∧
  (∀ record elapsed,
     (life inbox).1 = Ret tt → elapsed <= timeout →
     Z.of_nat (length record) <= INT_MAX →
     (life (inbox ++ [Datagram record elapsed])).1 = Ret tt) ∧
  (∀ record elapsed rest,
     (life inbox).1 = Ret tt → timeout < elapsed →
     (life (inbox ++ Datagram record elapsed :: rest)).1 = Stop Watchdog_expired).
Proof.
  intros timeout life.
  split; [|split; [|split; [|split; [|split]]]].
  - intros Hunset. unfold timeout, watchdog_setting. rewrite Hunset. reflexivity.
  - intros v Hset. unfold timeout, watchdog_setting. rewrite Hset. reflexivity.
  - intros Hmin.
    pose proof (accepting_main cf name argv inbox (process_start cf) eq_refl) as Hrun.
    unfold life, run. destruct (main _ _ _ _ _ _ _) as [[u|t] q]; simpl.
    + apply Hrun.
    + apply Hrun, Hmin.
  - intros Hinbox.
    pose proof (accepting_main_in_time cf name argv inbox Hinbox
                  (process_start cf) eq_refl) as Hrun.
    unfold life, run. destruct (main _ _ _ _ _ _ _) as [[u|t] q]; simpl.
    + discriminate.
    + destruct Hrun as [_ Ht]. congruence.
  - intros record elapsed Haccepting Hintime Hlen.
    pose proof (accepting_main cf name argv inbox (process_start cf) eq_refl) as Hrun.
    unfold life, run in *.
    destruct (main _ _ _ _ _ inbox _) as [[[]|t] q] eqn:Hmain; [|discriminate].
    rewrite (main_app _ _ _ _ _ _ _ Hmain), dgram_server_loop_cons.
    rewrite (accepting_not_full _ _ _ Hrun).
    destruct (wakeup_datagram_in_time _ _ name argv record elapsed q Hrun Hintime Hlen)
      as [e ->].
    rewrite dgram_server_loop_nil.
    rewrite (accepting_not_full (cf_max_idle cf) timeout); [reflexivity|].
    exact Hrun.
  - intros record elapsed rest Haccepting Hlate.
    pose proof (accepting_main cf name argv inbox (process_start cf) eq_refl) as Hrun.
    unfold life, run in *.
    destruct (main _ _ _ _ _ inbox _) as [[[]|t] q] eqn:Hmain; [|discriminate].
    rewrite (main_app _ _ _ _ _ _ _ Hmain), dgram_server_loop_cons.
    rewrite (accepting_not_full _ _ _ Hrun).
    rewrite (wakeup_datagram_late _ _ name argv record elapsed q Hrun Hlate).
    reflexivity.
Qed.


(** *** A write that fails *)

Lemma appending_event (fp : VSTREAM) (start p : process) (e : event) :
  to_fallback_sink e = false →
  appending fp start p → appending fp start (record_event e p).
Proof.
  intros He [Hfp Hext]. split; [exact Hfp|].
  eapply extends_by_trans; [exact Hext | apply extends_by_event, He].
Qed.

Lemma appending_count (fp : VSTREAM) (start p : process) (n : Z) :
  appending fp start p → appending fp start (set_use_count n p).
Proof. intros Hp. exact Hp. Qed.

Lemma appending_wakeup (fp : VSTREAM) (start : process) (name : string)
    (argv : list string) (timeout : option int_var) (x : stimulus) :
  triple (appending fp start)
    (dgram_server_wakeup write_ok (postlogd_service write_ok) name argv timeout x)
    (λ _, appending fp start) (λ _, appending fp start).
Proof.
  intros p Hp. pose proof Hp as [Hfp _].
  run_paths; try congruence;
    repeat first [ exact Hp
                 | apply appending_count
                 | apply appending_event; [reflexivity|] ].
Qed.

(** C1, as the code has it.  When the write of a record fails, the
    service routine discards the status and returns: the process goes
    on, with the stream still open.  Neither that record nor any later
    one goes to syslog, whatever arrives next; the next record is again
    written to the stream. *)
Theorem write_failure_is_discarded (fp : VSTREAM) (buf : list byte) (len : Z)
    (name : string) (argv : list string) (p : process) :
  postlogd_stream p = Some fp →
  0 <= len <= Z.of_nat (length buf) →
  write_ok (trace p) fp (take (Z.to_nat len) buf) = false →
  let q := record_event (Logwriter_write fp (take (Z.to_nat len) buf) VSTREAM_EOF) p in
  postlogd_service write_ok buf len name argv p = (Ret tt, q) ∧
  postlogd_stream q = Some fp ∧
  (∀ next, postlogd_service write_ok next (Z.of_nat (length next)) name argv q
           = (Ret tt, record_event
                        (Logwriter_write fp next (write_status write_ok q fp next)) q)) ∧
  (∀ timeout later,
     let after := (dgram_server_loop write_ok (postlogd_service write_ok)
                     name argv timeout later q).2 in
     postlogd_stream after = Some fp ∧
     extends_by (λ e, to_fallback_sink e = false) p after).
Proof.
  intros Hfp Hlen Hfail q.
  assert (postlogd_service write_ok buf len name argv p = (Ret tt, q)) as Hq.
  { rewrite (postlogd_service_appends write_ok fp) by assumption.
    unfold write_status. rewrite Hfail. reflexivity. }
  split; [exact Hq|]. split; [exact Hfp|]. split.
  - intros next. rewrite (postlogd_service_appends write_ok fp) by (exact Hfp || lia).
    rewrite Nat2Z.id, firstn_all. reflexivity.
  - intros timeout later after.
    assert (appending fp p q) as Hstart.
    { apply appending_event; [reflexivity|]. split; [exact Hfp | apply extends_by_refl]. }
    pose proof (dgram_server_loop_rule (appending fp p) (λ _, appending fp p) (λ _, True)
                  (postlogd_service write_ok) name argv timeout
                  (λ x _, appending_wakeup fp p name argv timeout x)
                  (λ r Hr _ _, Hr) later (Forall_any later) q Hstart) as Hloop.
    unfold after.
    destruct (dgram_server_loop _ _ _ _ _ later q) as [[u|t] q']; exact Hloop.
Qed.


(** *** Start-up *)

Lemma starting_event (path : string) (e : event) (p : process) :
  to_append_target e = false → to_fallback_sink e = false →
  starting path p → starting path (record_event e p).
Proof.
  intros He1 He2 (Hpath & Hfp & Honly & Hcount & Happend & Hsyslog).
  repeat split; try assumption;
    apply Forall_app; split; try assumption; repeat constructor; assumption.
Qed.

Lemma starting_store (path : string) (x : int_var) (v : Z) (p : process) :
  starting path p → starting path (store x v p).
Proof. intros Hp. destruct x; exact Hp. Qed.

Lemma starting_ends (path text : string) (p : process) :
  starting path p → ends_at_startup (Fatal text) p.
Proof.
  intros (_ & _ & _ & Hcount & Happend & Hsyslog).
  split; [exists text; reflexivity|]. repeat split; assumption.
Qed.

Lemma starting_table (path : string) (cf : main_cf) (row : CONFIG_TIME_TABLE) :
  triple (starting path) (get_mail_conf_time write_ok cf row)
    (λ _, starting path) ends_at_startup.
Proof.
  intros p Hp. pose proof Hp as (_ & _ & Honly & _).
  run_paths; try congruence;
    repeat first [ exact Hp
                 | apply starting_store
                 | eapply starting_ends
                 | apply starting_event; [reflexivity | reflexivity |] ].
Qed.

Lemma starting_pre_jail_init (path name : string) (argv : list string) :
  argv ≠ [] ∨ (path ≠ "" ∧ safe_open path = None) →
  triple (starting path) (pre_jail_init safe_open write_ok name argv)
    (λ _ _, False) ends_at_startup.
Proof.
  intros Hbad p Hp. pose proof Hp as (Hpath & _ & Honly & _).
  run_paths; try congruence; try (rewrite Hpath in *; intuition congruence);
    repeat first [ exact Hp
                 | eapply starting_ends
                 | apply starting_event; [reflexivity | reflexivity |] ].
Qed.

(** C4.  With a positional argument on the command line, or with a
    destination that cannot be opened, every run ends in a fatal error,
    and it does so before the service loop has served anything: no
    record has been counted, written to the logwriter or sent to
    syslog. *)
Theorem startup_errors_are_fatal (cf : main_cf) (name : string)
    (argv : list string) (inbox : list stimulus) :
  argv ≠ [] ∨ (cf_maillog_file cf ≠ "" ∧ safe_open (cf_maillog_file cf) = None) →
  ∃ text p,
    run safe_open write_ok cf name argv inbox = (Stop (Fatal text), p) ∧
    use_count p = 0 ∧ no_event to_append_target p ∧ no_event to_fallback_sink p.
Proof.
  intros Hbad.
  assert (starting (cf_maillog_file cf) (process_start cf)) as Hstart.
  { repeat split; constructor. }
  pose proof (main_rule (starting (cf_maillog_file cf)) (starting (cf_maillog_file cf))
                (λ _, False) (λ _, False) ends_at_startup (λ _, True) cf name argv
                (starting_table _ cf _)
                (starting_pre_jail_init _ name argv Hbad)
                (λ p (H : False), match H with end)
                (λ x _ p (H : False), match H with end)
                (λ p (H : False), match H with end)
                inbox (Forall_any inbox) (process_start cf) Hstart) as Hrun.
  unfold run. destruct (main _ _ _ _ _ _ _) as [[u|t] q]; [contradiction|].
  destruct Hrun as ([text ->] & Hcount & Happend & Hsyslog).
  exists text, q. auto.
Qed.


(** *** The switch to direct writes *)

Lemma strlen_c_string (text : list byte) :
  ∃ len, strlen (text ++ [NUL]) = Some len ∧ c_string (text ++ [NUL]) = c_string text.
Proof.
  induction text as [|b text (len & Hlen & Htext)]; simpl.
  - exists 0. split; reflexivity.
  - destruct (is_NUL b).
    + exists 0. split; reflexivity.
    + rewrite Hlen, Htext. exists (Z.succ len). split; reflexivity.
Qed.

Lemma msg_logger_print_direct (fp : VSTREAM) (text : list byte) (p : process) :
  postlogd_stream p = Some fp → use_direct_write p →
  msg_logger_print write_ok text p
  = (Ret tt, record_event (Logwriter_write fp (c_string text)
                             (write_status write_ok p fp (c_string text))) p).
Proof.
  intros Hfp [Honly Hfn]. unfold msg_logger_print, bind, gets.
  rewrite Honly, Hfn. simpl call.
  destruct (strlen_c_string text) as (len & Hlen & Htext).
  rewrite (postlogd_fallback_appends write_ok fp _ len p Hfp Hlen), Htext.
  reflexivity.
Qed.

Lemma redirected_to_event (path : string) (fp : VSTREAM) (e : event) (p : process) :
  written_to fp e = true →
  redirected_to path fp p → redirected_to path fp (record_event e p).
Proof.
  intros He (Hfp & Hmode & since & Htrace & Hsince).
  split; [exact Hfp|]. split; [exact Hmode|].
  exists (since ++ [e]). split.
  - simpl. rewrite Htrace. reflexivity.
  - apply Forall_app. split; [exact Hsince | repeat constructor; exact He].
Qed.

Lemma redirected_to_count (path : string) (fp : VSTREAM) (n : Z) (p : process) :
  redirected_to path fp p → redirected_to path fp (set_use_count n p).
Proof. intros Hp. exact Hp. Qed.

Lemma redirected_to_store (path : string) (fp : VSTREAM) (x : int_var) (v : Z)
    (p : process) :
  redirected_to path fp p → redirected_to path fp (store x v p).
Proof. intros Hp. destruct x; exact Hp. Qed.

Lemma written_to_same (fp : VSTREAM) (bytes : list byte) (status : Z) :
  written_to fp (Logwriter_write fp bytes status) = true.
Proof. simpl. apply bool_decide_eq_true. reflexivity. Qed.

Lemma redirected_to_wakeup (path : string) (fp : VSTREAM) (name : string)
    (argv : list string) (timeout : option int_var) (x : stimulus) :
  triple (redirected_to path fp)
    (dgram_server_wakeup write_ok (postlogd_service write_ok) name argv timeout x)
    (λ _, redirected_to path fp) (λ _, redirected_to path fp).
Proof.
  intros p Hp. pose proof Hp as (Hfp & [Honly Hfn] & _).
  run_paths; simplify_eq;
    repeat first [ exact Hp
                 | apply redirected_to_count
                 | apply redirected_to_event; [apply written_to_same|] ].
Qed.

Lemma redirected_to_post_jail_init (path : string) (fp : VSTREAM) (name : string)
    (argv : list string) :
  triple (redirected_to path fp) (post_jail_init name argv)
    (λ _, redirected_to path fp) (λ _, redirected_to path fp).
Proof. intros p Hp. exact Hp. Qed.

Lemma fresh_table (cf : main_cf) :
  10 <= watchdog_setting cf →
  triple (λ p, p = process_start cf)
    (get_mail_conf_time write_ok cf
       (Config_time VAR_POSTLOGD_WATCHDOG DEF_POSTLOGD_WATCHDOG Var_postlogd_watchdog 10 0))
    (λ _ p, p = store Var_postlogd_watchdog (watchdog_setting cf) (process_start cf))
    (λ _ _, False).
Proof.
  intros Hmin p ->. unfold get_mail_conf_time. reduce_state.
  fold (watchdog_setting cf).
  rewrite bool_decide_eq_false_2 by lia.
  rewrite bool_decide_eq_false_2 by tauto. reflexivity.
Qed.

Lemma fresh_pre_jail_init (cf : main_cf) (fp : VSTREAM) (name : string) :
  cf_maillog_file cf ≠ "" → safe_open (cf_maillog_file cf) = Some fp →
  triple (λ p, p = store Var_postlogd_watchdog (watchdog_setting cf) (process_start cf))
    (pre_jail_init safe_open write_ok name [])
    (λ _, redirected_to (cf_maillog_file cf) fp)
    (λ _ _, False).
Proof.
  intros Hpath Hopen p ->.
  unfold pre_jail_init, bind, ret, gets, process_start. reduce_state.
  rewrite bool_decide_eq_true_2 by exact Hpath.
  unfold logwriter_open, msg_logger_control, bind, emit, modify, ret.
  rewrite Hopen. reduce_state.
  split; [reflexivity|]. split; [split; reflexivity|].
  exists []. split; [reflexivity | constructor].
Qed.

(** C6.  With a destination that opens, initialisation makes the one
    call of [msg_logger_control] of the whole run, right after the open,
    asking for fallback-only mode with [postlogd_fallback] as writer.
    From then on, whatever arrives, the mode and the writer stay as set,
    nothing is sent on the postlog socket, every call the process makes
    is a write on the stream, and a diagnostic of the process's own is
    written on the stream. *)
Theorem diagnostics_redirected_once (cf : main_cf) (fp : VSTREAM) (name : string)
    (inbox : list stimulus) :
  cf_maillog_file cf ≠ "" → safe_open (cf_maillog_file cf) = Some fp →
  10 <= watchdog_setting cf →
  let p := (run safe_open write_ok cf name [] inbox).2 in
  postlogd_stream p = Some fp ∧ use_direct_write p ∧
  (∃ since,
     trace p = handshake (cf_maillog_file cf) fp ++ since ∧
     Forall (λ e, written_to fp e = true) since) ∧
  length (List.filter registers_writer (trace p)) = 1%nat ∧
  no_event on_shared_channel p ∧
  (∀ text, msg_logger_print write_ok text p
           = (Ret tt, record_event
                        (Logwriter_write fp (c_string text)
                           (write_status write_ok p fp (c_string text))) p)).
Proof.
  intros Hpath Hopen Hmin p.
  set (I := redirected_to (cf_maillog_file cf) fp).
  pose proof (main_rule _ _ I I (λ _, I) (λ _, True) cf name []
                (triple_weaken _ _ _ _ _ _ _ (fresh_table cf Hmin)
                   (λ _ H, H) (λ _ _ H, H) (λ _ _ (H : False), match H with end))
                (triple_weaken _ _ _ _ _ _ _ (fresh_pre_jail_init cf fp name Hpath Hopen)
                   (λ _ H, H) (λ _ _ H, H) (λ _ _ (H : False), match H with end))
                (redirected_to_post_jail_init _ fp name [])
                (λ x _, redirected_to_wakeup _ fp name [] _ x)
                (λ q Hq _ _, Hq)
                inbox (Forall_any inbox) (process_start cf) eq_refl) as Hrun.
  assert (I p) as (Hfp & Hmode & since & Htrace & Hsince).
  { unfold p, run. destruct (main _ _ _ _ _ _ _) as [[u|t] q]; exact Hrun. }
  split; [exact Hfp|]. split; [exact Hmode|].
  split; [exists since; split; assumption|].
  assert (∀ kind : event → bool,
            (∀ e, written_to fp e = true → kind e = false) →
            List.filter kind since = []) as Hnone.
  { intros kind Hkind. clear Htrace. induction Hsince as [|e rest He Hrest IH]; simpl.
    - reflexivity.
    - rewrite (Hkind e He). exact IH. }
  split; [|split].
  - rewrite Htrace. simpl. rewrite Hnone; [reflexivity|].
    intros [] He; try reflexivity; discriminate.
  - unfold no_event. rewrite Htrace. repeat constructor.
    eapply Forall_impl; [exact Hsince|].
    intros [] He; try reflexivity; discriminate.
  - intros text. apply msg_logger_print_direct; assumption.
Qed.


(** *** How a run starts *)

Lemma main_startup (cf : main_cf) (name : string) (argv : list string)
    (inbox : list stimulus) (p : process) :
  main safe_open write_ok cf name argv inbox p
  = match startup safe_open write_ok cf name argv p with
    | (Ret _, q) => dgram_server_loop write_ok (postlogd_service write_ok) name argv
                      (Some Var_postlogd_watchdog) inbox q
    | (Stop t, q) => (Stop t, q)
    end.
Proof.
  rewrite main_steps. unfold startup, bind.
  destruct (get_mail_conf_time _ _ _ p) as [[u1|t1] p1]; [|reflexivity].
  destruct (pre_jail_init _ _ _ _ p1) as [[u2|t2] p2]; [|reflexivity].
  destruct (post_jail_init _ _ p2) as [[u3|t3] p3]; reflexivity.
Qed.

(** Every way initialisation can go: into the loop, with the stream
    open and the diagnostics switched over or with neither; or to a
    fatal error, reported on the postlog socket, after at most one
    failed open. *)
Lemma startup_outcome (cf : main_cf) (name : string) (argv : list string) :
  match startup safe_open write_ok cf name argv (process_start cf) with
  | (Ret _, q) =>
      argv = [] ∧ 10 <= watchdog_setting cf ∧
      ((cf_maillog_file cf = "" ∧ q = started_without_file cf) ∨
       (∃ fp, cf_maillog_file cf ≠ "" ∧
              safe_open (cf_maillog_file cf) = Some fp ∧
              q = started_with_file cf fp))
  | (Stop t, q) =>
      postlogd_stream q = None ∧ use_shared_channel q ∧
      ∃ text, t = Fatal text ∧
        ((trace q = [Postlog_socket (String.list_byte_of_string text)] ∧
          (watchdog_setting cf < 10 ∨
           ∃ arg rest, argv = arg :: rest ∧
                       text = "unexpected command-line argument: " +:+ arg)) ∨
         (trace q = [Logwriter_open (cf_maillog_file cf) None;
                     Postlog_socket (String.list_byte_of_string text)] ∧
          argv = [] ∧ cf_maillog_file cf ≠ "" ∧
          safe_open (cf_maillog_file cf) = None))
  end.
Proof.
  unfold startup, process_start, watchdog_setting, started_without_file,
    started_with_file, handshake, use_shared_channel.
  run_paths; reduce_state; simpl app.
  all: try solve
    [ split; [reflexivity|]; split; [split; reflexivity|];
      eexists; split; [reflexivity|];
      first [ left; split; [reflexivity|]; first [left; lia | right; eauto]
            | right; repeat split; auto ] ].
  all: split; [reflexivity|]; split; [lia|].
  all: try solve [right; eexists; split; [eassumption|]; split; reflexivity].
  all: left; split; [|reflexivity].
  all: destruct (decide (cf_maillog_file cf = "")); [assumption | contradiction].
Qed.


(** *** What a run leaves at its sinks *)

(** Induction over the service loop, keeping track of what is observed
    at a sink: if every wake-up that returns adds what its stimulus
    should, and every wake-up that ends the process adds nothing, then
    the loop adds what a beginning of the inbox should, and what the
    whole inbox should when it returns. *)
Lemma dgram_server_loop_observed {X} (obs : event → option X)
    (out : stimulus → option X) (K : event → Prop) (I : process → Prop)
    (S : stimulus → Prop) (service : service_fn) (name : string)
    (argv : list string) (timeout : option int_var) :
  (∀ x p, S x → I p →
     match dgram_server_wakeup write_ok service name argv timeout x p with
     | (Ret _, q) =>
         I q ∧ ∃ new, trace q = trace p ++ new ∧ Forall K new ∧
                      omap obs new = option_list (out x)
     | (Stop _, q) =>
         I q ∧ ∃ new, trace q = trace p ++ new ∧ Forall K new ∧ omap obs new = []
     end) →
  ∀ inbox p, Forall S inbox → I p →
    match dgram_server_loop write_ok service name argv timeout inbox p with
    | (r, q) =>
        I q ∧ ∃ new, trace q = trace p ++ new ∧ Forall K new ∧
                     omap obs new `prefix_of` omap out inbox ∧
                     (r = Ret tt → omap obs new = omap out inbox)
    end.
Proof.
  intros Hwake inbox p Hinbox. revert p.
  assert (∀ p : process, trace p = trace p ++ []) as Hnil
    by (intros p; symmetry; apply app_nil_r).
  induction Hinbox as [|x rest Hx Hrest IH]; intros p Hp.
  - rewrite dgram_server_loop_nil.
    destruct (use_limit_reached p); (split; [exact Hp|]); exists [];
      (split; [apply Hnil|]); (split; [constructor|]);
      (split; [apply prefix_nil|]); [discriminate | reflexivity].
  - rewrite dgram_server_loop_cons. destruct (use_limit_reached p).
    { split; [exact Hp|]. exists []. split; [apply Hnil|]. split; [constructor|].
      split; [apply prefix_nil | discriminate]. }
    specialize (Hwake x p Hx Hp).
    destruct (dgram_server_wakeup _ _ _ _ _ x p) as [[u|t] q].
    + destruct Hwake as (Hq & new1 & Htrace1 & Hnew1 & Hobs1).
      specialize (IH q Hq).
      destruct (dgram_server_loop _ _ _ _ _ rest q) as [r q'].
      destruct IH as (Hq' & new2 & Htrace2 & Hnew2 & Hprefix & Hall).
      split; [exact Hq'|]. exists (new1 ++ new2).
      assert (omap out (x :: rest) = option_list (out x) ++ omap out rest) as Hout
        by (simpl; destruct (out x); reflexivity).
      split; [rewrite Htrace2, Htrace1; symmetry; apply app_assoc|].
      split; [apply Forall_app; split; assumption|].
      rewrite omap_app, Hobs1, Hout. split.
      * apply prefix_app, Hprefix.
      * intros Hr. rewrite (Hall Hr). reflexivity.
    + destruct Hwake as (Hq & new & Htrace & Hnew & Hobs).
      split; [exact Hq|]. exists new. split; [exact Htrace|]. split; [exact Hnew|].
      rewrite Hobs. split; [apply prefix_nil | discriminate].
Qed.

Lemma take_whole (record : list byte) :
  take (Z.to_nat (Z.of_nat (length record))) record = record.
Proof. rewrite Nat2Z.id. apply firstn_all. Qed.

Lemma wakeup_with_file (fp : VSTREAM) (name : string) (argv : list string)
    (timeout : option int_var) (x : stimulus) (p : process) :
  postlogd_stream p = Some fp ∧ use_direct_write p →
  match dgram_server_wakeup write_ok (postlogd_service write_ok) name argv timeout x p with
  | (Ret _, q) =>
      (postlogd_stream q = Some fp ∧ use_direct_write q) ∧
      ∃ new, trace q = trace p ++ new ∧
             Forall (λ e, written_to fp e = true) new ∧
             omap payload_of new = option_list (file_payload x)
  | (Stop _, q) =>
      (postlogd_stream q = Some fp ∧ use_direct_write q) ∧
      ∃ new, trace q = trace p ++ new ∧
             Forall (λ e, written_to fp e = true) new ∧ omap payload_of new = []
  end.
Proof.
  intros [Hfp Hmode].
  assert (trace p = trace p ++ []) as Hnil by (symmetry; apply app_nil_r).
  destruct x as [record elapsed|text|elapsed]; unfold dgram_server_wakeup.
  - unfold bind at 1, gets.
    destruct (watchdog_expires timeout elapsed p).
    + split; [split; assumption|]. exists []. repeat split; [exact Hnil | constructor].
    + unfold bind, modify.
      rewrite (postlogd_service_appends write_ok fp) by (exact Hfp || lia).
      rewrite take_whole. split; [split; assumption|].
      eexists [_]. split; [reflexivity|]. split; [|reflexivity].
      repeat constructor. apply written_to_same.
  - rewrite (msg_logger_print_direct fp text p Hfp Hmode).
    split; [split; assumption|].
    eexists [_]. split; [reflexivity|]. split; [|reflexivity].
    repeat constructor. apply written_to_same.
  - unfold bind, gets. case_bool_decide.
    + split; [split; assumption|]. exists []. repeat split; [exact Hnil | constructor].
    + split; [split; assumption|]. exists []. repeat split; [exact Hnil | constructor].
Qed.

Lemma wakeup_without_file (name : string) (argv : list string)
    (timeout : option int_var) (x : stimulus) (p : process) :
  short x →
  postlogd_stream p = None ∧ use_shared_channel p →
  match dgram_server_wakeup write_ok (postlogd_service write_ok) name argv timeout x p with
  | (Ret _, q) =>
      (postlogd_stream q = None ∧ use_shared_channel q) ∧
      ∃ new, trace q = trace p ++ new ∧ Forall informational new ∧
             omap syslog_text_of new = option_list (syslog_payload x)
  | (Stop _, q) =>
      (postlogd_stream q = None ∧ use_shared_channel q) ∧
      ∃ new, trace q = trace p ++ new ∧ Forall informational new ∧
             omap syslog_text_of new = []
  end.
Proof.
  intros Hshort [Hfp Hmode].
  assert (trace p = trace p ++ []) as Hnil by (symmetry; apply app_nil_r).
  destruct x as [record elapsed|text|elapsed]; unfold dgram_server_wakeup.
  - unfold bind at 1, gets.
    destruct (watchdog_expires timeout elapsed p).
    + split; [split; assumption|]. exists []. repeat split; [exact Hnil | constructor].
    + unfold bind, modify. simpl in Hshort.
      rewrite postlogd_service_syslogs by (exact Hfp || lia).
      rewrite take_whole. split; [split; assumption|].
      eexists [_]. split; [reflexivity|]. split; [|reflexivity].
      repeat constructor.
  - unfold msg_logger_print, bind, gets. destruct Hmode as [Honly Hfn].
    rewrite Honly. split; [repeat split; assumption|].
    eexists [_]. split; [reflexivity|]. split; [|reflexivity].
    repeat constructor.
  - unfold bind, gets. case_bool_decide.
    + split; [split; assumption|]. exists []. repeat split; [exact Hnil | constructor].
    + split; [split; assumption|]. exists []. repeat split; [exact Hnil | constructor].
Qed.

Lemma payloads_handshake (path : string) (fp : VSTREAM) (since : list event) :
  payloads (handshake path fp ++ since) = payloads since.
Proof. reflexivity. Qed.

Lemma written_to_payload (fp : VSTREAM) (e : event) :
  written_to fp e = true →
  to_fallback_sink e = false ∧ opens_target e = false ∧
  registers_writer e = false ∧ on_shared_channel e = false.
Proof. destruct e; simpl; intros He; repeat split; discriminate. Qed.

(** X1.  With a destination configured, what the logwriter receives
    over a run is, in order and each once, what a beginning of the
    inbox holds: each record whole, each diagnostic of the process's own
    up to its first NUL.  It is what the whole inbox holds when the run
    is still accepting at its end. *)
Theorem file_receives_inbox_in_order (cf : main_cf) (name : string)
    (argv : list string) (inbox : list stimulus) :
  cf_maillog_file cf ≠ "" →
  let life := run safe_open write_ok cf name argv inbox in
  payloads (trace life.2) `prefix_of` omap file_payload inbox ∧
  (life.1 = Ret tt → payloads (trace life.2) = omap file_payload inbox).
Proof.
  intros Hpath life. unfold life, run. rewrite main_startup.
  pose proof (startup_outcome cf name argv) as Hstart.
  destruct (startup _ _ _ _ _ _) as [[u|t] q].
  - destruct Hstart as (_ & _ & [[Hnone _] | (fp & _ & _ & ->)]); [contradiction|].
    pose proof (dgram_server_loop_observed payload_of file_payload
                  (λ e, written_to fp e = true)
                  (λ p, postlogd_stream p = Some fp ∧ use_direct_write p)
                  (λ _, True) (postlogd_service write_ok) name argv
                  (Some Var_postlogd_watchdog)
                  (λ x p _ Hp, wakeup_with_file fp name argv _ x p Hp)
                  inbox (started_with_file cf fp) (Forall_any inbox)
                  (conj eq_refl (conj eq_refl eq_refl))) as Hloop.
    destruct (dgram_server_loop _ _ _ _ _ inbox _) as [r q'].
    destruct Hloop as (_ & new & Htrace & _ & Hprefix & Hall). simpl.
    rewrite Htrace. simpl trace. rewrite payloads_handshake.
    split; [exact Hprefix | exact Hall].
  - destruct Hstart as (_ & _ & text & _ & [[Htrace _] | [Htrace _]]); simpl;
      rewrite Htrace; (split; [apply prefix_nil | discriminate]).
Qed.

(** X2.  With no destination configured, what syslog receives over a
    run of records that fit an [int] is, in order and each once, what a
    beginning of the inbox holds, each record up to its first NUL, and
    what the whole inbox holds when the run is still accepting at its
    end.  Every call is made at the priority [LOG_MAIL | LOG_INFO]; the
    diagnostics of the process's own go to the postlog socket and not to
    syslog. *)
Theorem syslog_receives_inbox_in_order (cf : main_cf) (name : string)
    (argv : list string) (inbox : list stimulus) :
  cf_maillog_file cf = "" → Forall short inbox →
  let life := run safe_open write_ok cf name argv inbox in
  syslog_texts (trace life.2) `prefix_of` omap syslog_payload inbox ∧
  (life.1 = Ret tt → syslog_texts (trace life.2) = omap syslog_payload inbox) ∧
  Forall informational (trace life.2).
Proof.
  intros Hpath Hshort life. unfold life, run. rewrite main_startup.
  pose proof (startup_outcome cf name argv) as Hstart.
  destruct (startup _ _ _ _ _ _) as [[u|t] q].
  - destruct Hstart as (_ & _ & [[_ ->] | (fp & Hsome & _)]); [|contradiction].
    pose proof (dgram_server_loop_observed syslog_text_of syslog_payload
                  informational
                  (λ p, postlogd_stream p = None ∧ use_shared_channel p)
                  short (postlogd_service write_ok) name argv
                  (Some Var_postlogd_watchdog)
                  (λ x p Hx Hp, wakeup_without_file name argv _ x p Hx Hp)
                  inbox (started_without_file cf) Hshort
                  (conj eq_refl (conj eq_refl eq_refl))) as Hloop.
    destruct (dgram_server_loop _ _ _ _ _ inbox _) as [r q'].
    destruct Hloop as (_ & new & Htrace & Hnew & Hprefix & Hall). simpl.
    rewrite Htrace. simpl trace. simpl app.
    split; [exact Hprefix|]. split; [exact Hall | exact Hnew].
  - destruct Hstart as (_ & _ & text & _ & [[Htrace _] | (_ & _ & Hsome & _)]);
      [|contradiction].
    simpl. rewrite Htrace.
    split; [apply prefix_nil|]. split; [discriminate | repeat constructor].
Qed.


(** *** One sink, one open *)

Lemma syslog_only_event (e : event) (p : process) :
  opens_target e = false → registers_writer e = false →
  to_append_target e = false →
  syslog_only p → syslog_only (record_event e p).
Proof.
  intros He1 He2 He3 [Hp Hw]. split.
  - apply never_redirected_event; assumption.
  - apply Forall_app. split; [exact Hw | repeat constructor; exact He3].
Qed.

Lemma syslog_only_store (x : int_var) (v : Z) (p : process) :
  syslog_only p → syslog_only (store x v p).
Proof. intros Hp. destruct x; exact Hp. Qed.

Lemma syslog_only_count (n : Z) (p : process) :
  syslog_only p → syslog_only (set_use_count n p).
Proof. intros Hp. exact Hp. Qed.

Ltac syslog_only_paths :=
  let p := fresh "p" in
  let Hp := fresh "Hp" in
  intros p Hp; pose proof Hp as [(? & [? ?] & ? & _) _];
  run_paths; try congruence;
  repeat first [ exact Hp
               | apply syslog_only_store
               | apply syslog_only_count
               | apply syslog_only_event; [reflexivity | reflexivity | reflexivity |] ].

Lemma syslog_only_table (cf : main_cf) (row : CONFIG_TIME_TABLE) :
  triple syslog_only (get_mail_conf_time write_ok cf row)
    (λ _, syslog_only) (λ _, syslog_only).
Proof. syslog_only_paths. Qed.

Lemma syslog_only_pre_jail_init (name : string) (argv : list string) :
  triple syslog_only (pre_jail_init safe_open write_ok name argv)
    (λ _, syslog_only) (λ _, syslog_only).
Proof. syslog_only_paths. Qed.

Lemma syslog_only_post_jail_init (name : string) (argv : list string) :
  triple syslog_only (post_jail_init name argv)
    (λ _, syslog_only) (λ _, syslog_only).
Proof. syslog_only_paths. Qed.

Lemma syslog_only_wakeup (name : string) (argv : list string)
    (timeout : option int_var) (x : stimulus) :
  triple syslog_only
    (dgram_server_wakeup write_ok (postlogd_service write_ok) name argv timeout x)
    (λ _, syslog_only) (λ _, syslog_only).
Proof. syslog_only_paths. Qed.

Lemma syslog_only_main (cf : main_cf) (name : string) (argv : list string)
    (inbox : list stimulus) :
  triple syslog_only (main safe_open write_ok cf name argv inbox)
    (λ _, syslog_only) (λ _, syslog_only).
Proof.
  apply (main_rule syslog_only syslog_only syslog_only syslog_only
           (λ _, syslog_only) (λ _, True)).
  - apply syslog_only_table.
  - apply syslog_only_pre_jail_init.
  - apply syslog_only_post_jail_init.
  - intros x _. apply syslog_only_wakeup.
  - intros p Hp _ _. exact Hp.
  - apply Forall_any.
Qed.

(** What a run with a destination configured has done by its end: the
    start-up failed, with at most a failed open behind it, or the stream
    is open and everything since the handshake is a write on it. *)
Lemma run_with_file (cf : main_cf) (name : string) (argv : list string)
    (inbox : list stimulus) :
  cf_maillog_file cf ≠ "" →
  let p := (run safe_open write_ok cf name argv inbox).2 in
  (postlogd_stream p = None ∧ use_shared_channel p ∧
   ∃ text, trace p = [Postlog_socket text] ∨
           (trace p = [Logwriter_open (cf_maillog_file cf) None; Postlog_socket text] ∧
            safe_open (cf_maillog_file cf) = None)) ∨
  (∃ fp, safe_open (cf_maillog_file cf) = Some fp ∧
         redirected_to (cf_maillog_file cf) fp p).
Proof.
  intros Hpath p. unfold p, run. rewrite main_startup.
  pose proof (startup_outcome cf name argv) as Hstart.
  destruct (startup _ _ _ _ _ _) as [[u|t] q].
  - destruct Hstart as (_ & _ & [[Hnone _] | (fp & _ & Hopen & ->)]); [contradiction|].
    right. exists fp. split; [exact Hopen|].
    pose proof (dgram_server_loop_rule
                  (redirected_to (cf_maillog_file cf) fp)
                  (λ _, redirected_to (cf_maillog_file cf) fp) (λ _, True)
                  (postlogd_service write_ok) name argv (Some Var_postlogd_watchdog)
                  (λ x _, redirected_to_wakeup _ fp name argv _ x)
                  (λ r Hr _ _, Hr) inbox (Forall_any inbox)
                  (started_with_file cf fp)) as Hloop.
    assert (redirected_to (cf_maillog_file cf) fp (started_with_file cf fp)) as H0.
    { split; [reflexivity|]. split; [split; reflexivity|].
      exists []. split; [reflexivity | constructor]. }
    specialize (Hloop H0).
    destruct (dgram_server_loop _ _ _ _ _ inbox _) as [[u'|t'] q']; exact Hloop.
  - left. destruct Hstart as (Hfp & Hmode & text & Ht & [[Htrace _] | (Htrace & _ & _ & Hopen)]);
      (split; [exact Hfp|]); (split; [exact Hmode|]); eexists;
      [left | right; split; [|exact Hopen]]; exact Htrace.
Qed.

Lemma filter_none (kind : event → bool) (events : list event) :
  Forall (λ e, kind e = false) events → List.filter kind events = [].
Proof.
  induction 1 as [|e rest He Hrest IH]; simpl.
  - reflexivity.
  - rewrite He. exact IH.
Qed.

Lemma written_to_kinds (fp : VSTREAM) (kind : event → bool) (since : list event) :
  (∀ e, written_to fp e = true → kind e = false) →
  Forall (λ e, written_to fp e = true) since →
  Forall (λ e, kind e = false) since.
Proof. intros Hkind Hsince. eapply Forall_impl; [exact Hsince | exact Hkind]. Qed.

(** X3.  A process uses one sink for its whole life, the one its
    configuration names: with a destination configured no run ever calls
    syslog, not when the open fails and not when writes fail; without
    one no run ever calls the logwriter. *)
Theorem one_sink_per_process (cf : main_cf) (name : string)
    (argv : list string) (inbox : list stimulus) :
  let p := (run safe_open write_ok cf name argv inbox).2 in
  (cf_maillog_file cf ≠ "" → no_event to_fallback_sink p) ∧
  (cf_maillog_file cf = "" → no_event to_append_target p).
Proof.
  intros p. split; intros Hpath.
  - destruct (run_with_file cf name argv inbox Hpath)
      as [(_ & _ & text & [Htrace | [Htrace _]]) | (fp & _ & _ & _ & since & Htrace & Hsince)];
      fold p in Htrace; unfold no_event; rewrite Htrace.
    + repeat constructor.
    + repeat constructor.
    + apply Forall_app. split; [repeat constructor|].
      apply (written_to_kinds fp); [|exact Hsince].
      intros e He. apply (written_to_payload fp e He).
  - assert (syslog_only (process_start cf)) as Hstart.
    { repeat split; try exact Hpath; constructor. }
    pose proof (syslog_only_main cf name argv inbox _ Hstart) as Hrun.
    unfold p, run. destruct (main _ _ _ _ _ _ _) as [[u|t] q]; apply Hrun.
Qed.

(** X4.  Over a whole run [logwriter_open] is called at most once, and
    only on the configured, non-empty path; the stream is what that call
    returned, so it is set exactly when the one open succeeded. *)
Theorem destination_opened_at_most_once (cf : main_cf) (name : string)
    (argv : list string) (inbox : list stimulus) :
  let p := (run safe_open write_ok cf name argv inbox).2 in
  (length (List.filter opens_target (trace p)) <= 1)%nat ∧
  (∀ path fp, Logwriter_open path fp ∈ trace p →
     path = cf_maillog_file cf ∧ path ≠ "" ∧
     fp = safe_open path ∧ postlogd_stream p = fp) ∧
  (∀ fp, postlogd_stream p = Some fp →
     Logwriter_open (cf_maillog_file cf) (Some fp) ∈ trace p).
Proof.
  intros p. destruct (decide (cf_maillog_file cf = "")) as [Hpath|Hpath].
  - assert (never_redirected (process_start cf)) as Hstart.
    { repeat split; try exact Hpath; constructor. }
    pose proof (never_redirected_main cf name argv inbox _ Hstart) as Hrun.
    assert (never_redirected p) as (Hfp & _ & _ & Hopen & _).
    { unfold p, run. destruct (main _ _ _ _ _ _ _) as [[u|t] q]; exact Hrun. }
    split; [rewrite (filter_none _ _ Hopen); simpl; lia|]. split.
    + intros path fp Hin. unfold no_event in Hopen.
      rewrite Forall_forall in Hopen. specialize (Hopen _ Hin). discriminate Hopen.
    + intros fp Hsome. congruence.
  - destruct (run_with_file cf name argv inbox Hpath)
      as [(Hfp & _ & text & [Htrace | [Htrace Hopen]]) | (fp & Hopen & Hfp & _ & since & Htrace & Hsince)];
      fold p in Htrace, Hfp; rewrite Htrace.
    + split; [simpl; lia|]. split.
      * intros path fp Hin. apply list_elem_of_singleton in Hin. discriminate Hin.
      * intros fp Hsome. congruence.
    + split; [simpl; lia|]. split.
      * intros path fp Hin. apply elem_of_cons in Hin as [Hin|Hin].
        -- injection Hin as -> ->. split; [reflexivity|]. split; [exact Hpath|].
           split; [symmetry; exact Hopen | exact Hfp].
        -- apply list_elem_of_singleton in Hin. discriminate Hin.
      * intros fp Hsome. congruence.
    + assert (Forall (λ e, opens_target e = false) since) as Hnone.
      { apply (written_to_kinds fp); [|exact Hsince].
        intros e He. apply (written_to_payload fp e He). }
      split; [|split].
      * unfold handshake. simpl. rewrite (filter_none _ _ Hnone). simpl. lia.
      * intros path fp' Hin. apply elem_of_app in Hin as [Hin|Hin].
        -- unfold handshake in Hin. apply elem_of_cons in Hin as [Hin|Hin].
           ++ injection Hin as -> ->. split; [reflexivity|]. split; [exact Hpath|].
              split; [symmetry; exact Hopen | exact Hfp].
           ++ apply list_elem_of_singleton in Hin. discriminate Hin.
        -- rewrite Forall_forall in Hnone. specialize (Hnone _ Hin). discriminate Hnone.
      * intros fp' Hsome. assert (fp' = fp) as -> by congruence.
        apply elem_of_app. left. constructor.
Qed.


(** *** What the service routine reads, and what it does not *)

(** X5.  The service routine reads the [len] bytes of the record and
    nothing behind them: on two buffers that agree on their first [len]
    bytes it does the same, whatever else the buffers hold. *)
Theorem postlogd_service_reads_len_bytes (buf other : list byte) (len : Z)
    (name : string) (argv : list string) (p : process) :
  0 <= len <= Z.of_nat (length buf) → len <= Z.of_nat (length other) →
  len <= INT_MAX →
  take (Z.to_nat len) buf = take (Z.to_nat len) other →
  postlogd_service write_ok buf len name argv p
  = postlogd_service write_ok other len name argv p.
Proof.
  intros Hbuf Hother Hint Hsame.
  destruct (postlogd_stream p) as [fp|] eqn:Hfp.
  - rewrite !(postlogd_service_appends write_ok fp) by (assumption || lia).
    rewrite Hsame. reflexivity.
  - rewrite !postlogd_service_syslogs by (assumption || lia).
    rewrite Hsame. reflexivity.
Qed.

(** X6.  The service routine routes by the stream alone: a destination
    setting that changed under a running process, as after a reload,
    changes nothing of what the routine does with a request. *)
Theorem postlogd_service_ignores_reload (path : string) (buf : list byte) (len : Z)
    (name : string) (argv : list string) (p : process) :
  postlogd_service write_ok buf len name argv (reloaded path p)
  = let (r, q) := postlogd_service write_ok buf len name argv p in
    (r, reloaded path q).
Proof. destruct p. unfold reloaded. run_paths; reflexivity. Qed.

(** X7.  The command line is checked before anything else in
    [pre_jail_init]: with a positional argument the process ends in a
    fatal error that names the first argument, with the stream unset
    and without [logwriter_open] having been called, whatever
    destination is configured. *)
Theorem argument_rejected_before_open (cf : main_cf) (name arg : string)
    (rest : list string) (inbox : list stimulus) :
  10 <= watchdog_setting cf →
  let life := run safe_open write_ok cf name (arg :: rest) inbox in
  life.1 = Stop (Fatal ("unexpected command-line argument: " +:+ arg)) ∧
  postlogd_stream life.2 = None ∧
  no_event opens_target life.2 ∧ no_event registers_writer life.2.
Proof.
  intros Hmin life. unfold life, run. rewrite main_startup.
  pose proof (startup_outcome cf name (arg :: rest)) as Hstart.
  destruct (startup _ _ _ _ _ _) as [[u|t] q].
  - destruct Hstart as [Hargv _]. discriminate Hargv.
  - destruct Hstart as (Hfp & _ & text & -> & [[Htrace Hwhy] | (_ & Hargv & _)]);
      [|discriminate Hargv].
    destruct Hwhy as [Hlow | (arg' & rest' & Hargv & ->)]; [lia|].
    injection Hargv as <- _. simpl.
    split; [reflexivity|]. split; [exact Hfp|].
    unfold no_event. rewrite Htrace. split; repeat constructor.
Qed.

(** X8.  The service routine tests the stream before it uses it: in no
    state and for no request does it hand a null stream to the
    logwriter.  The fallback writer makes no such test: called with the
    stream unset, it hands the null stream over, for every
    NUL-terminated buffer. *)
Theorem only_postlogd_service_tests_stream (buf : list byte) (len : Z) (p : process) :
  postlogd_stream p = None → strlen buf = Some len →
  postlogd_fallback write_ok buf p = (Stop (Crash Null_stream), p) ∧
  ∀ request size name argv q,
    (postlogd_service write_ok request size name argv q).1 ≠ Stop (Crash Null_stream).
Proof.
  intros Hfp Hlen. split.
  - unfold postlogd_fallback, bind, gets. rewrite Hfp, Hlen. reflexivity.
  - intros request size name argv q. run_paths; simpl; discriminate.
Qed.


(** X9.  The stream and the diagnostic mode move together: at the end of
    every run either the stream is unset and the msg_logger client is on
    the shared channel, with no call of [msg_logger_control] made, or
    the stream is set and the client writes through [postlogd_fallback],
    after exactly one such call. *)
Theorem stream_and_mode_in_step (cf : main_cf) (name : string)
    (argv : list string) (inbox : list stimulus) :
  let p := (run safe_open write_ok cf name argv inbox).2 in
  (postlogd_stream p = None ∧ use_shared_channel p ∧
   List.filter registers_writer (trace p) = []) ∨
  (∃ fp, postlogd_stream p = Some fp ∧ use_direct_write p ∧
         List.filter registers_writer (trace p)
         = [Msg_logger_control [CA_MSG_LOGGER_CTL_FALLBACK_ONLY;
                                CA_MSG_LOGGER_CTL_FALLBACK_FN Fn_postlogd_fallback]]).
Proof.
  intros p. destruct (decide (cf_maillog_file cf = "")) as [Hpath|Hpath].
  - assert (never_redirected (process_start cf)) as Hstart.
    { repeat split; try exact Hpath; constructor. }
    pose proof (never_redirected_main cf name argv inbox _ Hstart) as Hrun.
    assert (never_redirected p) as (Hfp & Hmode & _ & _ & Hnone).
    { unfold p, run. destruct (main _ _ _ _ _ _ _) as [[u|t] q]; exact Hrun. }
    left. split; [exact Hfp|]. split; [exact Hmode|]. apply filter_none, Hnone.
  - destruct (run_with_file cf name argv inbox Hpath)
      as [(Hfp & Hmode & text & [Htrace | [Htrace _]])
         | (fp & _ & Hfp & Hmode & since & Htrace & Hsince)];
      fold p in Htrace, Hfp, Hmode.
    + left. split; [exact Hfp|]. split; [exact Hmode|]. rewrite Htrace. reflexivity.
    + left. split; [exact Hfp|]. split; [exact Hmode|]. rewrite Htrace. reflexivity.
    + right. exists fp. split; [exact Hfp|]. split; [exact Hmode|].
      rewrite Htrace. unfold handshake. simpl.
      rewrite (filter_none registers_writer since); [reflexivity|].
      apply (written_to_kinds fp); [|exact Hsince].
      intros e He. apply (written_to_payload fp e He).
Qed.

End Lifetime.


(** ** Scenarios *)

(** The three scenarios of the spec's section 8. *)
Example three_records_in_order :
  run any_path_opens writes_succeed cf_file "postlog" []
    [Datagram (bytes "A") 1; Datagram (bytes "BB") 1; Datagram (bytes "CCC") 1]
  = (Ret tt,
     Process (Some 1%positive) 10 0 100 "/var/log/app.log" true
       (Some Fn_postlogd_fallback) 3
       (handshake "/var/log/app.log" 1%positive ++
        [Logwriter_write 1%positive (bytes "A") 0;
         Logwriter_write 1%positive (bytes "BB") 0;
         Logwriter_write 1%positive (bytes "CCC") 0])).
Proof. vm_compute. reflexivity. Qed.

Example one_record_to_syslog :
  run no_path_opens writes_succeed cf_no_file "postlog" [] [Datagram (bytes "X") 1]
  = (Ret tt,
     Process None 10 0 100 "" false None 1
       [Syslog (Z.lor LOG_MAIL LOG_INFO) (bytes "X")]).
Proof. vm_compute. reflexivity. Qed.

Example unwritable_destination :
  let life := run no_path_opens writes_succeed cf_file "postlog" []
                [Datagram (bytes "X") 1] in
  life.1 = Stop (Fatal "open logfile /var/log/app.log") ∧
  trace life.2 = [Logwriter_open "/var/log/app.log" None;
                  Postlog_socket (bytes "open logfile /var/log/app.log")].
Proof. vm_compute. split; reflexivity. Qed.

(** The skeleton's two life-cycle policies are live: without the
    post-jail hook, a use limit of one ends the process after one
    request; with it, the idle limit still ends an idle process. *)
Example use_limit_without_post_jail_init :
  (dgram_server_main writes_succeed (Main_cf "" 100 1 ∅) "postlog" []
     (postlogd_service writes_succeed)
     [CA_MAIL_SERVER_TIME_TABLE time_table;
      CA_MAIL_SERVER_PRE_INIT (pre_jail_init no_path_opens writes_succeed);
      CA_MAIL_SERVER_SOLITARY;
      CA_MAIL_SERVER_WATCHDOG Var_postlogd_watchdog]
     [Datagram (bytes "A") 1; Datagram (bytes "B") 1]
     (process_start (Main_cf "" 100 1 ∅))).1
  = Stop Use_limit_exit.
Proof. vm_compute. reflexivity. Qed.

Example use_limit_with_post_jail_init :
  (run no_path_opens writes_succeed (Main_cf "" 100 1 ∅) "postlog" []
     [Datagram (bytes "A") 1; Datagram (bytes "B") 1]).1
  = Ret tt.
Proof. vm_compute. reflexivity. Qed.

Example idle_limit_still_applies :
  (run no_path_opens writes_succeed cf_no_file "postlog" []
     [Datagram (bytes "A") 1; Quiet 100; Datagram (bytes "B") 1]).1
  = Stop Idle_exit.
Proof. vm_compute. reflexivity. Qed.

(** ** Where the code departs from the specification *)

(** C1 fails as stated.  On a disk that takes no write, the write of
    "A" fails with [VSTREAM_EOF]; the run does not end in a fatal error,
    or in any other way: the process returns to its loop and serves "B". *)
Lemma write_failure_is_not_fatal :
  let life := run any_path_opens writes_fail cf_file "postlog" []
                [Datagram (bytes "A") 1; Datagram (bytes "B") 1] in
  trace life.2 = handshake "/var/log/app.log" 1%positive ++
                 [Logwriter_write 1%positive (bytes "A") VSTREAM_EOF;
                  Logwriter_write 1%positive (bytes "B") VSTREAM_EOF] ∧
  life.1 = Ret tt ∧
  ¬ ∃ text, life.1 = Stop (Fatal text).
Proof.
  vm_compute. split; [reflexivity|]. split; [reflexivity|].
  intros [text Hfatal]. discriminate Hfatal.
Qed.

(** C3 fails as stated.  A record of three bytes with a NUL in the
    middle reaches syslog as its first byte alone. *)
Lemma syslog_text_stops_at_NUL :
  let record := [x41; x00; x42] in
  let p := process_start cf_no_file in
  postlogd_service writes_succeed record 3 "postlog" [] p
  = (Ret tt, record_event (Syslog (Z.lor LOG_MAIL LOG_INFO) [x41]) p) ∧
  [x41] ≠ take 3 record.
Proof. split; [reflexivity | discriminate]. Qed.

(** ** The theorems at work *)

Lemma write_failure_is_discarded_witness :
  let p := set_postlogd_stream (Some 1%positive) (process_start cf_file) in
  let q := record_event (Logwriter_write 1%positive (bytes "A") VSTREAM_EOF) p in
  postlogd_stream p = Some 1%positive ∧
  0 <= 1 <= Z.of_nat (length (bytes "A")) ∧
  writes_fail (trace p) 1%positive (take (Z.to_nat 1) (bytes "A")) = false ∧
  postlogd_service writes_fail (bytes "A") 1 "postlog" [] p = (Ret tt, q).
Proof.
  intros p q.
  assert (postlogd_stream p = Some 1%positive) as Hfp by reflexivity.
  assert (0 <= 1 <= Z.of_nat (length (bytes "A"))) as Hlen by (simpl; lia).
  assert (writes_fail (trace p) 1%positive (take (Z.to_nat 1) (bytes "A")) = false)
    as Hfail by reflexivity.
  split; [exact Hfp|]. split; [exact Hlen|]. split; [exact Hfail|].
  exact (proj1 (write_failure_is_discarded writes_fail 1%positive (bytes "A") 1
                  "postlog" [] p Hfp Hlen Hfail)).
Defined.

Lemma postlogd_service_one_sink_witness :
  let p := process_start cf_no_file in
  0 <= 2 <= Z.of_nat (length (bytes "BB")) ∧ 2 <= INT_MAX ∧
  ∃ e, postlogd_service writes_succeed (bytes "BB") 2 "postlog" [] p
       = (Ret tt, record_event e p) ∧
       xorb (to_append_target e) (to_fallback_sink e) = true.
Proof.
  intros p.
  assert (0 <= 2 <= Z.of_nat (length (bytes "BB"))) as Hlen by (simpl; lia).
  assert (2 <= INT_MAX) as Hint by (unfold INT_MAX; lia).
  split; [exact Hlen|]. split; [exact Hint|].
  destruct (postlogd_service_one_sink writes_succeed (bytes "BB") 2 "postlog" [] p
              Hlen Hint) as (e & Hrun & Hone & _).
  exists e. split; [exact Hrun | exact Hone].
Defined.

Lemma postlogd_service_syslog_text_witness :
  let p := process_start cf_no_file in
  postlogd_stream p = None ∧
  0 <= 1 <= Z.of_nat (length (bytes "X")) ∧ 1 <= INT_MAX ∧
  ∃ priority text,
    postlogd_service writes_succeed (bytes "X") 1 "postlog" [] p
    = (Ret tt, record_event (Syslog priority text) p) ∧
    text = c_string (take (Z.to_nat 1) (bytes "X")).
Proof.
  intros p.
  assert (0 <= 1 <= Z.of_nat (length (bytes "X"))) as Hlen by (simpl; lia).
  assert (1 <= INT_MAX) as Hint by (unfold INT_MAX; lia).
  split; [reflexivity|]. split; [exact Hlen|]. split; [exact Hint|].
  destruct (postlogd_service_syslog_text writes_succeed (bytes "X") 1 "postlog" [] p
              eq_refl Hlen Hint) as (priority & text & Hrun & _ & _ & Htext & _).
  exists priority, text. split; [exact Hrun | exact Htext].
Defined.

Lemma postlogd_fallback_stops_at_NUL_witness :
  let p := set_postlogd_stream (Some 1%positive) (process_start cf_file) in
  postlogd_stream p = Some 1%positive ∧ (NUL ∉ bytes "warn") ∧
  postlogd_fallback writes_succeed (bytes "warn" ++ NUL :: bytes "ing") p
  = (Ret tt, record_event (Logwriter_write 1%positive (bytes "warn") 0) p).
Proof.
  intros p.
  assert (NUL ∉ bytes "warn") as Hclean.
  { intros Hin.
    repeat (apply elem_of_cons in Hin; destruct Hin as [Hin|Hin]; [discriminate Hin|]).
    apply elem_of_nil in Hin. exact Hin. }
  split; [reflexivity|]. split; [exact Hclean|].
  exact (proj1 (postlogd_fallback_stops_at_NUL writes_succeed 1%positive (bytes "warn")
                  (bytes "ing") "postlog" [] p eq_refl Hclean)).
Defined.

Lemma startup_errors_are_fatal_witness :
  (["extra"] ≠ [] ∨
   (cf_maillog_file cf_file ≠ "" ∧ any_path_opens (cf_maillog_file cf_file) = None)) ∧
  ∃ text p,
    run any_path_opens writes_succeed cf_file "postlog" ["extra"]
      [Datagram (bytes "X") 1]
    = (Stop (Fatal text), p) ∧
    use_count p = 0 ∧ no_event to_append_target p ∧ no_event to_fallback_sink p.
Proof.
  assert (["extra"] ≠ [] ∨
          (cf_maillog_file cf_file ≠ "" ∧
           any_path_opens (cf_maillog_file cf_file) = None)) as Hbad
    by (left; discriminate).
  split; [exact Hbad|].
  exact (startup_errors_are_fatal any_path_opens writes_succeed cf_file "postlog"
           ["extra"] [Datagram (bytes "X") 1] Hbad).
Defined.

Lemma empty_path_leaves_shared_channel_witness :
  cf_maillog_file cf_no_file = "" ∧
  let p := (run any_path_opens writes_succeed cf_no_file "postlog" []
              [Datagram (bytes "X") 1; Diagnostic (bytes "warning")]).2 in
  postlogd_stream p = None ∧ use_shared_channel p ∧
  no_event opens_target p ∧ no_event registers_writer p.
Proof.
  split; [reflexivity|].
  exact (proj2 (empty_path_leaves_shared_channel any_path_opens writes_succeed
                  cf_no_file "postlog" []
                  [Datagram (bytes "X") 1; Diagnostic (bytes "warning")] eq_refl)).
Defined.

Lemma diagnostics_redirected_once_witness :
  cf_maillog_file cf_file ≠ "" ∧
  any_path_opens (cf_maillog_file cf_file) = Some 1%positive ∧
  10 <= watchdog_setting cf_file ∧
  let p := (run any_path_opens writes_succeed cf_file "postlog" []
              [Datagram (bytes "A") 1; Diagnostic (bytes "warning")]).2 in
  postlogd_stream p = Some 1%positive ∧ use_direct_write p ∧
  length (List.filter registers_writer (trace p)) = 1%nat ∧
  no_event on_shared_channel p.
Proof.
  assert (cf_maillog_file cf_file ≠ "") as Hpath by discriminate.
  assert (10 <= watchdog_setting cf_file) as Hmin by (vm_compute; discriminate).
  split; [exact Hpath|]. split; [reflexivity|]. split; [exact Hmin|].
  destruct (diagnostics_redirected_once any_path_opens writes_succeed cf_file
              1%positive "postlog"
              [Datagram (bytes "A") 1; Diagnostic (bytes "warning")]
              Hpath eq_refl Hmin) as (Hfp & Hmode & _ & Honce & Hshared & _).
  split; [exact Hfp|]. split; [exact Hmode|]. split; [exact Honce | exact Hshared].
Defined.

Lemma watchdog_timeout_enforced_witness :
  let life := run no_path_opens writes_succeed cf_slow "postlog" [] in
  watchdog_setting cf_slow = 30 ∧
  (life [Datagram (bytes "X") 30]).1 = Ret tt ∧
  (life ([Datagram (bytes "X") 30] ++ [Datagram (bytes "Y") 31; Datagram (bytes "Z") 1])).1
  = Stop Watchdog_expired.
Proof.
  intros life.
  destruct (watchdog_timeout_enforced no_path_opens writes_succeed cf_slow "postlog" []
              [Datagram (bytes "X") 30]) as (_ & Hset & _ & _ & _ & Hlate).
  assert ((life [Datagram (bytes "X") 30]).1 = Ret tt) as Hfirst
    by (vm_compute; reflexivity).
  split; [apply Hset; vm_compute; reflexivity|]. split; [exact Hfirst|].
  apply Hlate; [exact Hfirst | vm_compute; reflexivity].
Defined.

(** ** The further theorems at work *)

Lemma file_receives_inbox_in_order_witness :
  let inbox := [Datagram (bytes "A") 1; Diagnostic (bytes "warn"); Datagram (bytes "BB") 1] in
  let life := run any_path_opens writes_fail cf_file "postlog" [] inbox in
  cf_maillog_file cf_file ≠ "" ∧
  payloads (trace life.2) `prefix_of` omap file_payload inbox ∧
  (life.1 = Ret tt → payloads (trace life.2) = omap file_payload inbox).
Proof.
  intros inbox life.
  assert (cf_maillog_file cf_file ≠ "") as Hpath by discriminate.
  split; [exact Hpath|].
  exact (file_receives_inbox_in_order any_path_opens writes_fail cf_file "postlog" []
           inbox Hpath).
Defined.

Lemma syslog_receives_inbox_in_order_witness :
  let inbox := [Datagram (bytes "X") 1; Datagram [x41; x00; x42] 1; Diagnostic (bytes "warn")] in
  let life := run no_path_opens writes_succeed cf_no_file "postlog" [] inbox in
  cf_maillog_file cf_no_file = "" ∧ Forall short inbox ∧
  syslog_texts (trace life.2) `prefix_of` omap syslog_payload inbox ∧
  (life.1 = Ret tt → syslog_texts (trace life.2) = omap syslog_payload inbox) ∧
  Forall informational (trace life.2).
Proof.
  intros inbox life.
  assert (Forall short inbox) as Hshort
    by (repeat constructor; simpl; unfold INT_MAX; lia).
  split; [reflexivity|]. split; [exact Hshort|].
  exact (syslog_receives_inbox_in_order no_path_opens writes_succeed cf_no_file
           "postlog" [] inbox eq_refl Hshort).
Defined.

Lemma postlogd_service_reads_len_bytes_witness :
  let buf := bytes "AB" ++ bytes "left over" in
  let other := bytes "AB" ++ [NUL; NUL] in
  let p := process_start cf_no_file in
  0 <= 2 <= Z.of_nat (length buf) ∧ 2 <= Z.of_nat (length other) ∧ 2 <= INT_MAX ∧
  take (Z.to_nat 2) buf = take (Z.to_nat 2) other ∧
  postlogd_service writes_succeed buf 2 "postlog" [] p
  = postlogd_service writes_succeed other 2 "postlog" [] p.
Proof.
  intros buf other p.
  assert (0 <= 2 <= Z.of_nat (length buf)) as Hbuf by (simpl; lia).
  assert (2 <= Z.of_nat (length other)) as Hother by (simpl; lia).
  assert (2 <= INT_MAX) as Hint by (unfold INT_MAX; lia).
  assert (take (Z.to_nat 2) buf = take (Z.to_nat 2) other) as Hsame by reflexivity.
  split; [exact Hbuf|]. split; [exact Hother|]. split; [exact Hint|].
  split; [exact Hsame|].
  exact (postlogd_service_reads_len_bytes writes_succeed buf other 2 "postlog" [] p
           Hbuf Hother Hint Hsame).
Defined.

Lemma argument_rejected_before_open_witness :
  let life := run any_path_opens writes_succeed cf_file "postlog" ["-x"; "y"]
                [Datagram (bytes "A") 1] in
  10 <= watchdog_setting cf_file ∧
  life.1 = Stop (Fatal ("unexpected command-line argument: " +:+ "-x")) ∧
  postlogd_stream life.2 = None ∧
  no_event opens_target life.2 ∧ no_event registers_writer life.2.
Proof.
  intros life.
  assert (10 <= watchdog_setting cf_file) as Hmin by (vm_compute; discriminate).
  split; [exact Hmin|].
  exact (argument_rejected_before_open any_path_opens writes_succeed cf_file
           "postlog" "-x" ["y"] [Datagram (bytes "A") 1] Hmin).
Defined.

Lemma only_postlogd_service_tests_stream_witness :
  let p := process_start cf_no_file in
  let buf := bytes "x" ++ [NUL] in
  postlogd_stream p = None ∧ strlen buf = Some 1 ∧
  postlogd_fallback writes_succeed buf p = (Stop (Crash Null_stream), p).
Proof.
  intros p buf. split; [reflexivity|]. split; [reflexivity|].
  exact (proj1 (only_postlogd_service_tests_stream writes_succeed buf 1 p
                  eq_refl eq_refl)).
Defined.
